(** * Row-major typed-array matrices of retraigo/preprocess

    A shallow embedding of [Matrix] (src/unnamed/part_000), of
    [TfIdfTransformer] and of [multiplyDiags]
    (src/feature/conversion/text/sparse/tf_idf_transformer.ts).  The latter
    file imports an older Matrix, utils/matrix.ts, which is not among the
    sources: its constructor takes the shape as second argument.  The three
    members of it that [multiplyDiags] uses are modelled from the spec.

    Model choices.
    - A JavaScript value is [jsval]: a Number that is a safe integer is kept
      exactly as [JInt], any other Number is an IEEE-754 binary64 primitive
      float [JNum], a BigInt is [JBig], and [undefined] is [JUndef].  IEEE
      addition, multiplication and division of safe integers round the exact
      result once, which is what [num_of_Z] and [float_of_Z] do.
    - A typed array is a [list] of its element type; storing converts the
      value first (ToNumber / ToBigInt and the width conversion) and then
      writes, and a write at an index past the end does nothing (stdpp's list
      [insert] behaves the same way); reading past the end yields [undefined].
    - Fallible code returns [res], the exceptions it may throw being [err]. *)

From Stdlib Require Import ZArith Lia Floats.
From stdpp Require Import base list.

Open Scope Z_scope.

(** ** Exceptions and the error monad *)

Inductive err :=
  | EIncompleteShape   (* "Cannot initialize with incomplete shape ..." *)
  | ENoDType           (* "Cannot initialize without dType." *)
  | ENoOverload        (* "No overload matches your call for `new Matrix()`." *)
  | EUnequalRows       (* "Matrices must have equal rows." *)
  | EUnequalCols       (* "Matrices must have equal cols." *)
  | EIdfNotInitialized (* "IDF not initialized yet." *)
  | ETypeError         (* TypeError raised by the engine *)
  | ERangeError.       (* RangeError raised by the engine *)

Inductive res (A : Type) : Type :=
  | Ok (a : A)
  | Err (e : err).
Arguments Ok {A} a.
Arguments Err {A} e.

Definition res_bind {A B : Type} (m : res A) (f : A -> res B) : res B :=
  match m with
  | Ok a => f a
  | Err e => Err e
  end.

Notation "'let!' x ':=' m 'in' k" := (res_bind m (fun x => k))
  (at level 200, x name, m at level 100, k at level 200).

(** [mapM] for [res]: run [f] on every element, left to right, stop at the
    first exception. *)
Fixpoint res_map {A B : Type} (f : A -> res B) (l : list A) : res (list B) :=
  match l with
  | [] => Ok []
  | x :: l' => let! y := f x in let! ys := res_map f l' in Ok (y :: ys)
  end.

(** A loop over [l] threading an accumulator, stopping at the first exception. *)
Fixpoint res_fold {A B : Type} (f : B -> A -> res B) (l : list A) (acc : B) : res B :=
  match l with
  | [] => Ok acc
  | x :: l' => let! acc' := f acc x in res_fold f l' acc'
  end.

(** ** Numbers *)

(** The Number closest to the integer [z] (round to nearest, ties to even). *)
Definition float_of_Z (z : Z) : float :=
  SF2Prim (binary_normalize FloatOps.prec FloatOps.emax z 0 false).

(** ToIntegerOrInfinity followed by the modulo of ToUint8 and friends:
    NaN and the infinities give 0, a finite Number is truncated toward 0. *)
Definition float_trunc (f : float) : Z :=
  match Prim2SF f with
  | S754_finite s m e =>
      let z := if Z.leb 0 e then Z.pos m * 2 ^ e else Z.pos m / 2 ^ (- e) in
      if s then - z else z
  | _ => 0
  end.

(** Math.fround: the binary32 value nearest to a Number. *)
Definition fround (f : float) : float :=
  match Prim2SF f with
  | S754_finite s m e => SF2Prim (binary_round 24 128 s m e)
  | _ => f
  end.

Definition max_safe : Z := 2 ^ 53.

(** ** JavaScript values *)

Inductive jsval :=
  | JNum (f : float)   (* a Number that is not kept as a safe integer *)
  | JInt (z : Z)       (* a Number that is a safe integer, |z| <= 2^53 *)
  | JBig (z : Z)       (* a BigInt *)
  | JUndef.            (* undefined *)

(** [typeof v === "bigint"] *)
Definition is_bigint (v : jsval) : bool :=
  match v with JBig _ => true | _ => false end.

(** The Number an exact integer result rounds to. *)
Definition num_of_Z (z : Z) : jsval :=
  if Z.leb (Z.abs z) max_safe then JInt z else JNum (float_of_Z z).

(** ToNumber of a value that is not a BigInt ([None] for a BigInt). *)
Definition to_float (v : jsval) : option float :=
  match v with
  | JNum f => Some f
  | JInt z => Some (float_of_Z z)
  | JBig _ => None
  | JUndef => Some nan
  end.

(** The binary operators [+], [*] and [/]: BigInt with BigInt is exact
    (division truncates and throws RangeError on 0n), Number with Number is
    IEEE, [undefined] counts as NaN, and mixing BigInt with anything else
    throws TypeError. *)
Definition js_arith (zop : Z -> Z -> Z) (fop : float -> float -> float)
    (a b : jsval) : res jsval :=
  match a, b with
  | JBig x, JBig y => Ok (JBig (zop x y))
  | JBig _, _ | _, JBig _ => Err ETypeError
  | JInt x, JInt y => Ok (num_of_Z (zop x y))
  | _, _ =>
      match to_float a, to_float b with
      | Some x, Some y => Ok (JNum (fop x y))
      | _, _ => Err ETypeError
      end
  end.

Definition js_add : jsval -> jsval -> res jsval := js_arith Z.add PrimFloat.add.
Definition js_mul : jsval -> jsval -> res jsval := js_arith Z.mul PrimFloat.mul.

Definition js_div (a b : jsval) : res jsval :=
  match a, b with
  | JBig x, JBig y => if Z.eqb y 0 then Err ERangeError else Ok (JBig (Z.quot x y))
  | JBig _, _ | _, JBig _ => Err ETypeError
  | _, _ =>
      match to_float a, to_float b with
      | Some x, Some y => Ok (JNum (PrimFloat.div x y))
      | _, _ => Err ETypeError
      end
  end.

(** [Number(v)] *)
Definition js_Number (v : jsval) : float :=
  match v with
  | JNum f => f
  | JInt z | JBig z => float_of_Z z
  | JUndef => nan
  end.

(** ** The element-kind registry (DataType, TypedArrayMapping) *)

Inductive dtype := u8 | u16 | u32 | u64 | i8 | i16 | i32 | i64 | f32 | f64.

(** The element type of the typed array of a kind. *)
Definition elt (dt : dtype) : Type :=
  match dt with f32 | f64 => float | _ => Z end.

(** A typed-array element kind: the zero its constructor fills with, the
    value an indexed read yields, and the conversion an indexed store applies. *)
Record kind (A : Type) := {
  k_zero : A;
  k_read : A -> jsval;
  k_write : jsval -> res A;
  k_valid : A -> bool   (* the values such an array can hold *)
}.
Arguments k_zero {A} k.
Arguments k_read {A} k a.
Arguments k_write {A} k v.
Arguments k_valid {A} k a.

(** Wrap-around of a [w]-bit integer, unsigned or two's complement. *)
Definition wrap (signed : bool) (w z : Z) : Z :=
  if signed then (z + 2 ^ (w - 1)) mod 2 ^ w - 2 ^ (w - 1) else z mod 2 ^ w.

(** Uint8Array ... Int32Array ([big = false], elements read as Numbers) and
    BigUint64Array, BigInt64Array ([big = true], elements read as BigInts). *)
Definition int_kind (big signed : bool) (w : Z) : kind Z := {|
  k_zero := 0;
  k_read z := if big then JBig z else JInt z;
  k_write v :=
    if big then
      match v with JBig z => Ok (wrap signed w z) | _ => Err ETypeError end
    else
      match v with
      | JBig _ => Err ETypeError
      | JInt z => Ok (wrap signed w z)
      | JNum f => Ok (wrap signed w (float_trunc f))
      | JUndef => Ok 0
      end;
  k_valid z := Z.eqb (wrap signed w z) z
|}.

(** Float64Array and Float32Array (a Float32Array stores [fround] of the
    Number). *)
Definition float_kind (single : bool) : kind float := {|
  k_zero := 0%float;
  k_read f := JNum f;
  k_write v :=
    match to_float v with
    | Some f => Ok (if single then fround f else f)
    | None => Err ETypeError
    end;
  k_valid f := if single then PrimFloat.Leibniz.eqb (fround f) f else true
|}.

(** getConstructor *)
Definition kind_of (dt : dtype) : kind (elt dt) :=
  match dt return kind (elt dt) with
  | u8 => int_kind false false 8
  | u16 => int_kind false false 16
  | u32 => int_kind false false 32
  | u64 => int_kind true false 64
  | i8 => int_kind false true 8
  | i16 => int_kind false true 16
  | i32 => int_kind false true 32
  | i64 => int_kind true true 64
  | f32 => float_kind true
  | f64 => float_kind false
  end.

(** The spec's arithmetic domains: [wide] for the 64-bit integer kinds. *)
Definition is_wide (dt : dtype) : bool :=
  match dt with u64 | i64 => true | _ => false end.

Definition is_int (dt : dtype) : bool :=
  match dt with f32 | f64 => false | _ => true end.

Close Scope Z_scope.

(** ** The matrix *)

Record matrix (A : Type) := mkMatrix {
  nRows : nat;
  nCols : nat;
  data : list A
}.
Arguments mkMatrix {A} nRows nCols data.
Arguments nRows {A} m.
Arguments nCols {A} m.
Arguments data {A} m.

(** The invariant of the spec's data model. *)
Definition shape_ok {A} (m : matrix A) : Prop :=
  length (data m) = nRows m * nCols m.

(** Index pairs of a doubly nested [while] loop, outer index first. *)
Definition nested (outer inner : nat) : list (nat * nat) :=
  flat_map (fun i => map (fun j => (i, j)) (seq 0 inner)) (seq 0 outer).

Section Matrix.
Context {A : Type} (K : kind A).

(** *** Typed-array primitives *)

(** [new Ctor(n)] *)
Definition ta_alloc (n : nat) : list A := replicate n (k_zero K).

(** [d[k]] *)
Definition ta_get (d : list A) (k : nat) : jsval :=
  match d !! k with Some a => k_read K a | None => JUndef end.

(** [d[k] = v] *)
Definition ta_put (d : list A) (k : nat) (v : jsval) : res (list A) :=
  let! x := k_write K v in Ok (<[k := x]> d).

(** [d.set(src, off)] for [src] a typed array of the same kind. *)
Definition ta_set_array (d src : list A) (off : nat) : res (list A) :=
  if length d <? off + length src then Err ERangeError
  else Ok (take off d ++ src ++ drop (off + length src) d).

Fixpoint put_all (d : list A) (src : list jsval) (k : nat) : res (list A) :=
  match src with
  | [] => Ok d
  | v :: src' => let! d' := ta_put d k v in put_all d' src' (S k)
  end.

(** [d.set(src, off)] for [src] an array-like: RangeError when it does not
    fit, then element by element. *)
Definition ta_set_values (d : list A) (src : list jsval) (off : nat) : res (list A) :=
  if length d <? off + length src then Err ERangeError
  else put_all d src off.

(** [d.slice(b, e)], [e] defaulting to the length. *)
Definition ta_slice (d : list A) (b : nat) (e : option nat) : list A :=
  let e' := match e with Some e => Nat.min e (length d) | None => length d end in
  take (e' - b) (drop b d).

(** [v[i]] for an array-like [v]. *)
Definition arr_get (v : list jsval) (i : nat) : jsval :=
  match v !! i with Some x => x | None => JUndef end.

(** A number argument used as a condition: 0 is falsy. *)
Definition truthy (e : option nat) : option nat :=
  match e with Some (S k) => Some (S k) | _ => None end.

(** *** Construction *)

(** The first argument of [new Matrix(...)], by the runtime test that
    recognises it. [InTag] is the dType string of this kind. *)
Inductive ctor_input :=
  | InView (buf : list A)                                 (* ArrayBuffer.isView *)
  | InTag                                                 (* typeof "string" *)
  | InArray (rows : list (list jsval))                    (* Array.isArray *)
  | InLike (buf : list A) (shape : option (nat * option nat)) (* {data, shape} *)
  | InOther.

(** The config object: its [shape] (whose second entry may be missing) and
    whether it carries a [dType]. *)
Record ctor_config := { cfg_shape : option (nat * option nat); cfg_dType : bool }.

(** [shape[1]] when it is a number, else [data.length / shape[0]].  The model
    takes the quotient of naturals: this is the JS value whenever [shape[0]]
    divides the length (JS yields a fraction, Infinity or NaN otherwise). *)
Definition cols_of (buf : list A) (shape : nat * option nat) : nat :=
  match snd shape with
  | Some c => c
  | None => Nat.div (length buf) (fst shape)
  end.

Definition new_Matrix (x : ctor_input) (cfg : ctor_config) : res (matrix A) :=
  match x with
  | InView buf =>
      match cfg_shape cfg with
      | None => Err EIncompleteShape
      | Some sh => Ok (mkMatrix (fst sh) (cols_of buf sh) buf)
      end
  | InTag =>
      match cfg_shape cfg with
      | None => Err EIncompleteShape
      | Some (r, None) => Err EIncompleteShape
      | Some (r, Some c) => Ok (mkMatrix r c (ta_alloc (r * c)))
      end
  | InArray rows =>
      if negb (cfg_dType cfg) then Err ENoDType else
      match rows with
      | [] => Err ETypeError                         (* data[0].length *)
      | r0 :: _ =>
          let! buf := res_map (k_write K) (concat rows) in  (* from(data.flat(2)) *)
          Ok (mkMatrix (length rows) (length r0) buf)
      end
  | InLike buf (Some sh) => Ok (mkMatrix (fst sh) (cols_of buf sh) buf)
  | InLike _ None | InOther => Err ENoOverload
  end.

(** *** Reading *)

Definition item (m : matrix A) (r c : nat) : jsval :=
  ta_get (data m) (r * nCols m + c).

Definition row (m : matrix A) (n : nat) : list A :=
  ta_slice (data m) (n * nCols m) (Some (S n * nCols m)).

(** [col(n)]: [col[i] = data[offset + n]] for [i < nRows], [offset = i*nCols]. *)
Definition col (m : matrix A) (n : nat) : res (list A) :=
  res_fold (fun c i => ta_put c i (ta_get (data m) (i * nCols m + n)))
    (seq 0 (nRows m)) (ta_alloc (nRows m)).

(** [cols()]: the generator's body for column [i] is that of [col(i)]. *)
Definition cols (m : matrix A) : res (list (list A)) :=
  res_map (col m) (seq 0 (nCols m)).

(** [resArr.set(col, i * nRows)] for every yielded column. *)
Fixpoint set_cols (buf : list A) (cs : list (list A)) (i rows : nat) : res (list A) :=
  match cs with
  | [] => Ok buf
  | c :: cs' => let! buf' := ta_set_array buf c (i * rows) in set_cols buf' cs' (S i) rows
  end.

(** [get T()] *)
Definition T (m : matrix A) : res (matrix A) :=
  let! cs := cols m in
  let! buf := set_cols (ta_alloc (nRows m * nCols m)) cs 0 (nRows m) in
  Ok (mkMatrix (nCols m) (nRows m) buf).
End Matrix.

Section MatrixOps.
Context {A : Type} (K : kind A).

(** *** Reductions *)

(** [sum[j] += v] (colSum writes it [sum[j] = sum[j] + v]). *)
Definition add_at (sum : list A) (j : nat) (v : jsval) : res (list A) :=
  let! s := js_add (ta_get K sum j) v in ta_put K sum j s.

(** [rowSum()]: for [i < nRows], for [j < nCols], [sum[j] += data[offset + j]]. *)
Definition rowSum (m : matrix A) : res (list A) :=
  res_fold (fun sum ij => add_at sum (snd ij) (ta_get K (data m) (fst ij * nCols m + snd ij)))
    (nested (nRows m) (nCols m)) (ta_alloc K (nCols m)).

(** [colSum()]: for [i < nCols], for [j < nRows], [sum[j] = sum[j] + item(j, i)]. *)
Definition colSum (m : matrix A) : res (list A) :=
  res_fold (fun sum ij => add_at sum (snd ij) (item K m (snd ij) (fst ij)))
    (nested (nCols m) (nRows m)) (ta_alloc K (nRows m)).

(** [typeof this.data[0] === "bigint" ? BigInt(n) : n] *)
Definition count_divisor (m : matrix A) (n : nat) : jsval :=
  if is_bigint (ta_get K (data m) 0) then JBig (Z.of_nat n) else num_of_Z (Z.of_nat n).

(** [sum[i] = sum[i] / divisor] for [i < sum.length]. *)
Definition div_all (sum : list A) (divisor : jsval) : res (list A) :=
  res_fold (fun s i => let! q := js_div (ta_get K s i) divisor in ta_put K s i q)
    (seq 0 (length sum)) sum.

Definition rowMean (m : matrix A) : res (list A) :=
  let! sum := rowSum m in div_all sum (count_divisor m (nRows m)).

Definition colMean (m : matrix A) : res (list A) :=
  let! sum := colSum m in div_all sum (count_divisor m (nCols m)).

(** [dot(rhs)]: for [j < nCols], for [i < nRows],
    [res += this.item(i, j) * rhs.item(i, j)]. *)
Definition dot (a rhs : matrix A) : res jsval :=
  if negb (Nat.eqb (nRows rhs) (nRows a)) then Err EUnequalRows
  else if negb (Nat.eqb (nCols rhs) (nCols a)) then Err EUnequalCols
  else
    let zero := if is_bigint (ta_get K (data a) 0) then JBig 0 else JInt 0 in
    res_fold (fun r ji =>
                let! adder := js_mul (item K a (snd ji) (fst ji)) (item K rhs (snd ji) (fst ji)) in
                js_add r adder)
      (nested (nCols a) (nRows a)) zero.

(** *** Mutation (in place: the model returns the updated matrix) *)

Definition with_data (m : matrix A) (d : list A) : matrix A :=
  mkMatrix (nRows m) (nCols m) d.

Definition setCell (m : matrix A) (r c : nat) (v : jsval) : res (matrix A) :=
  let! d := ta_put K (data m) (r * nCols m + c) v in Ok (with_data m d).

Definition setAdd (m : matrix A) (r c : nat) (v : jsval) : res (matrix A) :=
  let k := r * nCols m + c in
  let! s := js_add (ta_get K (data m) k) v in
  let! d := ta_put K (data m) k s in Ok (with_data m d).

(** [setCol(col, val)]: [data[i * nCols + col] = val[i]] for [i < nRows]. *)
Definition setCol (m : matrix A) (c : nat) (v : list jsval) : res (matrix A) :=
  let! d := res_fold (fun d i => ta_put K d (i * nCols m + c) (arr_get v i))
              (seq 0 (nRows m)) (data m) in
  Ok (with_data m d).

(** [setRow(row, val)]: [data.set(val, row * nCols)]. *)
Definition setRow (m : matrix A) (r : nat) (v : list jsval) : res (matrix A) :=
  let! d := ta_set_values K (data m) v (r * nCols m) in Ok (with_data m d).

(** [slice(start = 0, end?)]: [new Matrix(data.slice(start ? start*nCols : 0,
    end ? end*nCols : undefined), {shape: [end ? end - start : nRows - start,
    nCols]})]. *)
Definition slice (m : matrix A) (start : nat) (end_ : option nat) : matrix A :=
  let b := match truthy (Some start) with Some s => s * nCols m | None => 0 end in
  let e := match truthy end_ with Some e => Some (e * nCols m) | None => None end in
  let rows := match truthy end_ with Some e => e - start | None => nRows m - start end in
  mkMatrix rows (nCols m) (ta_slice (data m) b e).

(** [setRow(row, val)] called with a typed array of the same kind, as
    [filter] does with a [row]: [data.set(val, row * nCols)] copies it. *)
Definition setRow_ta (m : matrix A) (r : nat) (v : list A) : res (matrix A) :=
  let! d := ta_set_array (data m) v (r * nCols m) in Ok (with_data m d).

(** [*rows()]: yields [data.slice(i * nCols, (i + 1) * nCols)] for [i < nRows]. *)
Definition rows (m : matrix A) : list (list A) :=
  map (fun i => ta_slice (data m) (i * nCols m) (Some (S i * nCols m))) (seq 0 (nRows m)).

(** [filter(fn)]: the indices [i < nRows] for which [fn(this.row(i), i, [])]
    holds, a new zero matrix [new Matrix(this.dType, {shape:
    [satisfying.length, nCols]})], then [matrix.setRow(i,
    this.row(satisfying[i]))] for each kept row.  The callback is taken to be
    a pure function of the row and its index. *)
Definition filter (m : matrix A) (fn : list A -> nat -> bool) : res (matrix A) :=
  let satisfying := List.filter (fun i => fn (row m i) i) (seq 0 (nRows m)) in
  let! mat := new_Matrix K InTag
                {| cfg_shape := Some (length satisfying, Some (nCols m)); cfg_dType := false |} in
  res_fold (fun mat i => setRow_ta mat i (row m (nth i satisfying 0)))
    (seq 0 (length satisfying)) mat.

(** One public in-place mutation. *)
Inductive mutation :=
  | MSetCell (r c : nat) (v : jsval)
  | MSetAdd (r c : nat) (v : jsval)
  | MSetCol (c : nat) (v : list jsval)
  | MSetRow (r : nat) (v : list jsval).

Definition mutate (m : matrix A) (op : mutation) : res (matrix A) :=
  match op with
  | MSetCell r c v => setCell m r c v
  | MSetAdd r c v => setAdd m r c v
  | MSetCol c v => setCol m c v
  | MSetRow r v => setRow m r v
  end.

(** The matrices reachable by a construction followed by mutations. *)
Inductive reachable : matrix A -> Prop :=
  | reach_new x cfg m : new_Matrix K x cfg = Ok m -> reachable m
  | reach_mutate m op m' : reachable m -> mutate m op = Ok m' -> reachable m'.

End MatrixOps.

(** The spec's data-model invariant together with the contents being values
    of the kind. *)
Definition wf {A} (K : kind A) (m : matrix A) : Prop :=
  shape_ok m /\ Forall (fun a => k_valid K a = true) (data m).

(** The buffer of the transpose of an [R] x [C] row-major buffer [d]. *)
Definition tr_data {A} (K : kind A) (R C : nat) (d : list A) : list A :=
  map (fun ji => nth (snd ji * C + fst ji) d (k_zero K)) (nested C R).

(** The exact sum of a list of integers. *)
Definition zsum (l : list Z) : Z := fold_right Z.add 0%Z l.

(** ** multiplyDiags and the TF-IDF transformer *)

Definition f64K : kind float := kind_of f64.

(** Modelled from the spec: [new Matrix(buffer, [rows, cols])] of
    utils/matrix.ts, the Matrix that tf_idf_transformer.ts imports, which is
    not among the sources (the Matrix of src/unnamed/part_000 takes a config
    object instead).  The spec's Wrap mode: the buffer is adopted without a
    copy, with the given rows and columns. *)
Definition md_wrap (buf : list float) (shape : nat * nat) : matrix float :=
  mkMatrix (fst shape) (snd shape) buf.

(** Modelled from the spec: [item(r, c)] of utils/matrix.ts, the element at
    flat offset [r * nCols + c] with no bounds check.  Past the end of the
    Float64Array the read is [undefined], which as an operand of [*] is NaN. *)
Definition md_item (m : matrix float) (r c : nat) : float :=
  match data m !! (r * nCols m + c) with Some a => a | None => nan end.

(** Modelled from the spec: [setCell(r, c, v)] of utils/matrix.ts, a store of
    the Number [v] at flat offset [r * nCols + c] of the Float64Array (a
    store past its end does nothing). *)
Definition md_setCell (m : matrix float) (r c : nat) (v : float) : matrix float :=
  mkMatrix (nRows m) (nCols m) (<[r * nCols m + c := v]> (data m)).

(** [multiplyDiags(x, y)] of tf_idf_transformer.ts, on Float64 matrices:
    [res = new Matrix(new Float64Array(x.data.length), x.shape)], then
    [res.setCell(i, j, x.item(i, j) * y[j])] for [i < x.nRows], [j < y.length]. *)
Definition multiplyDiags (x : matrix float) (y : list float) : matrix float :=
  fold_left (fun res ij =>
      md_setCell res (fst ij) (snd ij) (md_item x (fst ij) (snd ij) * nth (snd ij) y 0)%float)
    (nested (nRows x) (length y))
    (md_wrap (ta_alloc f64K (length (data x))) (nRows x, nCols x)).

(** The transformer's state: [idf: null | Float64Array]. *)
Record TfIdfTransformer := { idf : option (list float) }.

(** [new TfIdfTransformer()] *)
Definition new_TfIdfTransformer : TfIdfTransformer := {| idf := None |}.

Section TfIdf.
(** [Math.log], the host's natural logarithm. *)
Variable js_log : float -> float.

(** [Math.log(shape.samples / Number(freq[i])) + 1] *)
Definition idf_entry (samples : nat) (freq_i : jsval) : float :=
  (js_log (float_of_Z (Z.of_nat samples) / js_Number freq_i) + 1)%float.

(** [fit(data)]: [freq = data.rowSum()], the idf vector from it, stored in
    [this], which is returned. *)
Definition fit {A} (K : kind A) (t : TfIdfTransformer) (m : matrix A)
    : res TfIdfTransformer :=
  let! freq := rowSum K m in
  Ok {| idf := Some (map (fun f => idf_entry (nRows m) (k_read K f)) freq) |}.
End TfIdf.

(** [transform(data)]: the state afterwards and the result. *)
Definition transform (t : TfIdfTransformer) (m : matrix float)
    : TfIdfTransformer * res (matrix float) :=
  match idf t with
  | None => (t, Err EIdfNotInitialized)
  | Some y => (t, Ok (multiplyDiags m y))
  end.

(** ** Statements used by the theorems *)

(** A construction input whose shape information matches its buffer. *)
Definition shape_consistent {A} (buf : list A) (sh : nat * option nat) : Prop :=
  match snd sh with
  | Some c => length buf = fst sh * c
  | None => 0 < fst sh /\ Nat.divide (fst sh) (length buf)
  end.

Definition input_consistent {A} (x : @ctor_input A) (cfg : ctor_config) : Prop :=
  match x with
  | InView buf =>
      match cfg_shape cfg with Some sh => shape_consistent buf sh | None => True end
  | InLike buf (Some sh) => shape_consistent buf sh
  | InArray rows => Forall (fun r => length r = length (hd [] rows)) rows
  | _ => True
  end.

(** ** The error monad *)

Lemma res_fold_app {A B} (f : B -> A -> res B) l1 l2 acc :
  res_fold f (l1 ++ l2) acc = let! acc' := res_fold f l1 acc in res_fold f l2 acc'.
Proof.
  revert acc; induction l1 as [|x l1 IH]; intros acc; simpl; [reflexivity|].
  destruct (f acc x); simpl; [apply IH|reflexivity].
Qed.

Lemma res_fold_ext {A B} (f g : B -> A -> res B) l acc :
  (forall b x, In x l -> f b x = g b x) -> res_fold f l acc = res_fold g l acc.
Proof.
  revert acc; induction l as [|x l IH]; intros acc Hfg; simpl; [reflexivity|].
  rewrite (Hfg acc x) by (left; reflexivity).
  destruct (g acc x); simpl; [|reflexivity].
  apply IH. intros b y Hy. apply Hfg. right; exact Hy.
Qed.

Lemma res_fold_inv {A B} (P : B -> Prop) (f : B -> A -> res B) l acc r :
  P acc -> (forall b x b', P b -> f b x = Ok b' -> P b') ->
  res_fold f l acc = Ok r -> P r.
Proof.
  revert acc; induction l as [|x l IH]; intros acc Hacc Hf Hr; simpl in Hr.
  - injection Hr as <-; exact Hacc.
  - destruct (f acc x) as [b|e] eqn:E; simpl in Hr; [|discriminate].
    exact (IH b (Hf _ _ _ Hacc E) Hf Hr).
Qed.

Lemma res_fold_map {A B C} (f : B -> A -> res B) (g : C -> A) l acc :
  res_fold f (map g l) acc = res_fold (fun b x => f b (g x)) l acc.
Proof.
  revert acc; induction l as [|x l IH]; intros acc; simpl; [reflexivity|].
  destruct (f acc (g x)); simpl; [apply IH|reflexivity].
Qed.

Lemma res_map_length {A B} (f : A -> res B) l l' :
  res_map f l = Ok l' -> length l' = length l.
Proof.
  revert l'; induction l as [|x l IH]; intros l' H; simpl in H.
  - injection H as <-; reflexivity.
  - destruct (f x); simpl in H; [|discriminate].
    destruct (res_map f l) eqn:E; simpl in H; [|discriminate].
    injection H as <-. simpl. f_equal. apply IH. reflexivity.
Qed.

Lemma res_map_ok {A B} (f : A -> res B) (g : A -> B) l :
  (forall x, In x l -> f x = Ok (g x)) -> res_map f l = Ok (map g l).
Proof.
  induction l as [|x l IH]; intros H; simpl; [reflexivity|].
  rewrite (H x) by (left; reflexivity). simpl.
  rewrite IH by (intros y Hy; apply H; right; exact Hy). reflexivity.
Qed.

(** ** Lengths *)

Section Lengths.
Context {A : Type} (K : kind A).

Lemma ta_put_length d k v d' : ta_put K d k v = Ok d' -> length d' = length d.
Proof.
  unfold ta_put. destruct (k_write K v); simpl; intros H; [|discriminate].
  injection H as <-. apply length_insert.
Qed.

Lemma put_all_length d src k d' : put_all K d src k = Ok d' -> length d' = length d.
Proof.
  revert d k; induction src as [|v src IH]; intros d k H; simpl in H.
  - injection H as <-; reflexivity.
  - destruct (ta_put K d k v) as [d1|] eqn:E; simpl in H; [|discriminate].
    rewrite (IH _ _ H). exact (ta_put_length _ _ _ _ E).
Qed.

Lemma length_concat_uniform (rows : list (list jsval)) n :
  Forall (fun r => length r = n) rows -> length (concat rows) = length rows * n.
Proof.
  induction 1 as [|r rows Hr _ IH]; simpl; [reflexivity|].
  rewrite length_app, Hr, IH. reflexivity.
Qed.

Lemma cols_of_consistent (buf : list A) sh :
  shape_consistent buf sh -> length buf = fst sh * cols_of buf sh.
Proof.
  unfold shape_consistent, cols_of. destruct sh as [r [c|]]; simpl; [easy|].
  intros [Hr [k Hk]]. rewrite Hk, Nat.div_mul by lia. lia.
Qed.

End Lengths.

(** ** Construction and mutation keep the layout *)

Section Layout.
Context {A : Type} (K : kind A).

Lemma new_Matrix_shape_ok x cfg m :
  input_consistent x cfg -> new_Matrix K x cfg = Ok m -> shape_ok m.
Proof.
  unfold shape_ok. destruct x as [buf| |rows|buf [sh|]|]; simpl; intros Hc Hm.
  - destruct (cfg_shape cfg) as [sh|]; [|discriminate].
    injection Hm as <-. simpl. exact (cols_of_consistent buf sh Hc).
  - destruct (cfg_shape cfg) as [[r [c|]]|]; try discriminate.
    injection Hm as <-. simpl. apply length_replicate.
  - destruct (cfg_dType cfg); simpl in Hm; [|discriminate].
    destruct rows as [|r0 rows']; [discriminate|].
    destruct (res_map (k_write K) (concat (r0 :: rows'))) as [buf|] eqn:E;
      simpl in Hm; [|discriminate].
    injection Hm as <-. simpl.
    rewrite (res_map_length _ _ _ E).
    rewrite (length_concat_uniform (r0 :: rows') (length r0) Hc). reflexivity.
  - injection Hm as <-. simpl. exact (cols_of_consistent buf sh Hc).
  - discriminate.
  - discriminate.
Qed.

Lemma mutate_layout m op m' :
  mutate K m op = Ok m' ->
  nRows m' = nRows m /\ nCols m' = nCols m /\ length (data m') = length (data m).
Proof.
  destruct op as [r c v|r c v|c v|r v]; simpl.
  - unfold setCell. destruct (ta_put K (data m) (r * nCols m + c) v) as [d|] eqn:E;
      simpl; intros H; [|discriminate].
    injection H as <-. simpl. repeat split. exact (ta_put_length K _ _ _ _ E).
  - unfold setAdd.
    destruct (js_add (ta_get K (data m) (r * nCols m + c)) v) as [s|]; simpl;
      [|discriminate].
    destruct (ta_put K (data m) (r * nCols m + c) s) as [d|] eqn:E;
      simpl; intros H; [|discriminate].
    injection H as <-. simpl. repeat split. exact (ta_put_length K _ _ _ _ E).
  - unfold setCol.
    destruct (res_fold _ (seq 0 (nRows m)) (data m)) as [d|] eqn:E;
      simpl; intros H; [|discriminate].
    injection H as <-. simpl. repeat split.
    apply (res_fold_inv (fun d => length d = length (data m)) _ _ _ _ eq_refl)
      in E; [exact E|].
    intros b x b' Hb Hput. rewrite (ta_put_length K _ _ _ _ Hput). exact Hb.
  - unfold setRow, ta_set_values.
    destruct (length (data m) <? r * nCols m + length v); [discriminate|].
    destruct (put_all K (data m) v (r * nCols m)) as [d|] eqn:E;
      simpl; intros H; [|discriminate].
    injection H as <-. simpl. repeat split. exact (put_all_length K _ _ _ _ E).
Qed.

End Layout.

(** ** Row-major offsets *)

Lemma rowmajor_inj (C i j i' j' : nat) :
  j < C -> j' < C -> i * C + j = i' * C + j' -> i = i' /\ j = j'.
Proof.
  intros Hj Hj' E.
  destruct (Nat.lt_trichotomy i i') as [Hlt|[->|Hgt]].
  - exfalso. assert (i * C + C <= i' * C) by nia. lia.
  - split; [reflexivity|lia].
  - exfalso. assert (i' * C + C <= i * C) by nia. lia.
Qed.

Lemma rowmajor_lt (R C i j : nat) : i < R -> j < C -> i * C + j < R * C.
Proof. intros Hi Hj. assert (i * C + C <= R * C) by nia. lia. Qed.

(** ** Stores: setRow and setCol *)

Section Stores.
Context {A : Type} (K : kind A).

Lemma res_map_cons_inv {B} (f : B -> res A) x l ys :
  res_map f (x :: l) = Ok ys ->
  exists y ys', f x = Ok y /\ res_map f l = Ok ys' /\ ys = y :: ys'.
Proof.
  simpl. destruct (f x) as [y|]; simpl; [|discriminate].
  destruct (res_map f l) as [ys'|]; simpl; [|discriminate].
  intros H. injection H as <-. eauto.
Qed.

Lemma res_map_lookup {B} (f : B -> res A) l ys n a :
  res_map f l = Ok ys -> l !! n = Some a -> exists y, f a = Ok y /\ ys !! n = Some y.
Proof.
  revert ys n; induction l as [|x l IH]; intros ys n Hm Hn; [discriminate|].
  destruct (res_map_cons_inv f x l ys Hm) as (y & ys' & Hy & Hl & ->).
  destruct n as [|n]; simpl in Hn.
  - injection Hn as <-. eauto.
  - exact (IH ys' n Hl Hn).
Qed.

Lemma put_all_spec d src k xs :
  res_map (k_write K) src = Ok xs -> k + length src <= length d ->
  put_all K d src k = Ok (take k d ++ xs ++ drop (k + length xs) d).
Proof.
  revert d k xs; induction src as [|v src IH]; intros d k xs Hm Hlen.
  - simpl in Hm. injection Hm as <-. simpl.
    rewrite Nat.add_0_r, take_drop. reflexivity.
  - destruct (res_map_cons_inv _ v src xs Hm) as (x & xs' & Hx & Hxs & ->).
    simpl in Hlen. simpl. unfold ta_put. rewrite Hx. simpl.
    rewrite (IH _ (S k) xs' Hxs) by (rewrite length_insert; lia).
    assert (Hk : k < length d) by lia.
    rewrite (insert_take_drop d k x Hk).
    assert (Ht : length (take k d) = k) by (rewrite length_take; lia).
    rewrite take_app, Ht, Nat.sub_succ_l, Nat.sub_diag by lia.
    rewrite take_ge by (rewrite length_take; lia).
    rewrite drop_app_ge by (rewrite Ht; simpl; lia).
    rewrite Ht. simpl length.
    replace (S k + length xs' - k) with (S (length xs')) by lia. simpl.
    rewrite drop_drop. rewrite <- app_assoc. simpl.
    replace (S (k + length xs')) with (k + S (length xs')) by lia.
    reflexivity.
Qed.

Lemma setCol_loop (m : matrix A) (c : nat) (v : list jsval) (ys : list A) n d :
  shape_ok m -> c < nCols m -> n <= nRows m ->
  res_map (fun i => k_write K (arr_get v i)) (seq 0 (nRows m)) = Ok ys ->
  res_fold (fun d i => ta_put K d (i * nCols m + c) (arr_get v i)) (seq 0 n) (data m) = Ok d ->
  length d = length (data m) /\
  forall i j, i < nRows m -> j < nCols m ->
    d !! (i * nCols m + j) =
      if Nat.eqb j c && Nat.ltb i n then ys !! i else data m !! (i * nCols m + j).
Proof.
  intros Hok Hc. revert d. induction n as [|n IH]; intros d Hn Hys Hd.
  - simpl in Hd. injection Hd as <-. split; [reflexivity|].
    intros i j _ _. rewrite andb_false_r. reflexivity.
  - rewrite seq_S, res_fold_app in Hd. simpl in Hd.
    destruct (res_fold _ (seq 0 n) (data m)) as [d0|] eqn:E0; simpl in Hd; [|discriminate].
    destruct (IH d0 ltac:(lia) Hys eq_refl) as [Hl0 H0].
    assert (Hsn : seq 0 (nRows m) !! n = Some n) by (apply lookup_seq; lia).
    destruct (res_map_lookup _ _ _ _ _ Hys Hsn) as (y & Hy & Hyn).
    unfold ta_put in Hd. rewrite Hy in Hd. simpl in Hd. injection Hd as <-.
    split; [rewrite length_insert; exact Hl0|].
    intros i j Hi Hj. rewrite list_lookup_insert.
    assert (Hlt : n * nCols m + c < length d0)
      by (rewrite Hl0; unfold shape_ok in Hok; rewrite Hok; apply rowmajor_lt; lia).
    destruct (decide (n * nCols m + c = i * nCols m + j)) as [E|E].
    + destruct (rowmajor_inj (nCols m) n c i j Hc Hj E) as [<- <-].
      rewrite Nat.eqb_refl, (proj2 (Nat.ltb_lt n (S n)) ltac:(lia)). simpl.
      rewrite decide_True by (split; [reflexivity|exact Hlt]). symmetry; exact Hyn.
    + rewrite decide_False by tauto. rewrite H0 by assumption.
      destruct (Nat.eqb_spec j c) as [->|Hjc]; simpl; [|reflexivity].
      destruct (Nat.ltb_spec i n), (Nat.ltb_spec i (S n)); try reflexivity; try lia.
      exfalso. assert (i = n) by lia. subst. apply E. reflexivity.
Qed.

End Stores.

(** ** Index pairs of nested loops *)

Lemma nested_length R C : length (nested R C) = R * C.
Proof.
  induction R as [|R IH]; [reflexivity|].
  unfold nested in *. rewrite seq_S, flat_map_app, length_app, IH. simpl.
  rewrite app_nil_r, length_map, length_seq. lia.
Qed.

Lemma nested_S R C : nested (S R) C = nested R C ++ map (fun j => (R, j)) (seq 0 C).
Proof. unfold nested. rewrite seq_S, flat_map_app. simpl. rewrite app_nil_r. reflexivity. Qed.

Lemma nested_nth R C i j d :
  i < R -> j < C -> nth (i * C + j) (nested R C) d = (i, j).
Proof.
  induction R as [|R IH]; intros Hi Hj; [lia|].
  rewrite nested_S. destruct (Nat.lt_ge_cases i R) as [Hlt|Hge].
  - rewrite app_nth1 by (rewrite nested_length; apply rowmajor_lt; lia).
    apply IH; lia.
  - assert (i = R) as -> by lia.
    rewrite app_nth2 by (rewrite nested_length; lia).
    rewrite nested_length. replace (R * C + j - R * C) with j by lia.
    rewrite nth_indep with (d' := (R, 0)) by (rewrite length_map, length_seq; lia).
    rewrite (map_nth (fun j => (R, j))), seq_nth by lia. reflexivity.
Qed.

Lemma rowmajor_decomp R C k :
  k < R * C -> exists i j, i < R /\ j < C /\ k = i * C + j.
Proof.
  intros Hk. assert (HC : C <> 0) by (intros ->; lia).
  exists (k / C), (k mod C). split; [|split].
  - apply Nat.Div0.div_lt_upper_bound. lia.
  - apply Nat.mod_upper_bound. exact HC.
  - rewrite Nat.mul_comm. apply Nat.div_mod. exact HC.
Qed.

Lemma in_nested R C ij : In ij (nested R C) -> fst ij < R /\ snd ij < C.
Proof.
  unfold nested. rewrite in_flat_map. intros (i & Hi & Hij).
  apply in_map_iff in Hij as (j & <- & Hj). apply in_seq in Hi, Hj. simpl. lia.
Qed.

(** ** Transposition *)

Section Transpose.
Context {A : Type} (K : kind A).
Hypothesis roundtrip : forall a, k_valid K a = true -> k_write K (k_read K a) = Ok a.
Hypothesis zero_valid : k_valid K (k_zero K) = true.

Lemma fill_loop (g : nat -> jsval) (f : nat -> A) n buf :
  n <= length buf -> (forall i, i < n -> k_write K (g i) = Ok (f i)) ->
  res_fold (fun c i => ta_put K c i (g i)) (seq 0 n) buf = Ok (map f (seq 0 n) ++ drop n buf).
Proof.
  induction n as [|n IH]; intros Hn Hg; [reflexivity|].
  rewrite seq_S, res_fold_app, IH by (auto with lia). simpl.
  unfold ta_put. rewrite Hg by lia. simpl.
  rewrite insert_app_r_alt by (rewrite length_map, length_seq; lia).
  rewrite length_map, length_seq, Nat.sub_diag.
  destruct (lookup_lt_is_Some_2 buf n ltac:(lia)) as [b Hb].
  rewrite (drop_S buf b n Hb). simpl.
  rewrite map_app, <- app_assoc. reflexivity.
Qed.

Lemma ta_get_valid (m : matrix A) k :
  Forall (fun a => k_valid K a = true) (data m) -> k < length (data m) ->
  k_write K (ta_get K (data m) k) = Ok (nth k (data m) (k_zero K)).
Proof.
  intros Hv Hk. unfold ta_get.
  destruct (nth_lookup_or_length (data m) k (k_zero K)) as [E|E]; [|lia].
  rewrite E. apply roundtrip. exact (Forall_lookup_1 _ _ _ _ Hv E).
Qed.

Lemma T_spec (m : matrix A) :
  wf K m -> T K m = Ok (mkMatrix (nCols m) (nRows m) (tr_data K (nRows m) (nCols m) (data m))).
Proof.
  intros [Hok Hv].
  set (colvec j := map (fun i => nth (i * nCols m + j) (data m) (k_zero K)) (seq 0 (nRows m))).
  assert (Hcol : forall j, j < nCols m -> col K m j = Ok (colvec j)).
  { intros j Hj. unfold col.
    rewrite (fill_loop _ (fun i => nth (i * nCols m + j) (data m) (k_zero K))).
    - unfold ta_alloc. rewrite drop_ge by (rewrite length_replicate; lia).
      rewrite app_nil_r. reflexivity.
    - unfold ta_alloc. rewrite length_replicate. lia.
    - intros i Hi. apply ta_get_valid; [exact Hv|].
      rewrite Hok. apply rowmajor_lt; lia. }
  assert (Hcols : cols K m = Ok (map colvec (seq 0 (nCols m)))).
  { unfold cols. apply res_map_ok. intros j Hj. apply in_seq in Hj. apply Hcol. lia. }
  assert (Hset : forall (cs : list (list A)) i (buf : list A),
            Forall (fun c => length c = nRows m) cs ->
            length buf = i * nRows m + length cs * nRows m ->
            set_cols buf cs i (nRows m) = Ok (take (i * nRows m) buf ++ concat cs)).
  { induction cs as [|c cs IH]; intros i buf Hc Hl; simpl.
    - simpl in Hl. rewrite take_ge by lia. rewrite app_nil_r. reflexivity.
    - inversion Hc as [|? ? Hc0 Hcs]; subst. simpl in Hl. unfold ta_set_array.
      rewrite (proj2 (Nat.ltb_ge _ _)) by lia. simpl.
      rewrite IH by (auto; rewrite !length_app, length_take, length_drop; lia).
      rewrite take_app, length_take, Nat.min_l by lia.
      rewrite take_take, Nat.min_r by lia.
      replace (S i * nRows m - i * nRows m) with (length c) by lia.
      rewrite take_app, Nat.sub_diag, take_0, app_nil_r, (take_ge c) by lia.
      rewrite <- app_assoc. reflexivity. }
  unfold T. rewrite Hcols. simpl.
  rewrite Hset.
  - simpl. f_equal. f_equal. unfold tr_data, nested, colvec.
    rewrite flat_map_concat_map, concat_map, map_map. f_equal.
    apply map_ext. intros j. rewrite map_map. reflexivity.
  - apply List.Forall_forall. intros c Hc. apply in_map_iff in Hc as (j & <- & _).
    unfold colvec. rewrite length_map, length_seq. reflexivity.
  - unfold ta_alloc. rewrite length_replicate, length_map, length_seq. lia.
Qed.

Lemma tr_data_length R C d : length (tr_data K R C d) = C * R.
Proof. unfold tr_data. rewrite length_map, nested_length. reflexivity. Qed.

Lemma tr_data_nth R C d i j :
  i < C -> j < R -> nth (i * R + j) (tr_data K R C d) (k_zero K) = nth (j * C + i) d (k_zero K).
Proof.
  intros Hi Hj. unfold tr_data.
  set (f := fun ji : nat * nat => nth (snd ji * C + fst ji) d (k_zero K)).
  rewrite (nth_indep _ (k_zero K) (f (0, 0)))
    by (rewrite length_map, nested_length; apply rowmajor_lt; lia).
  rewrite map_nth. unfold f. rewrite nested_nth by assumption. reflexivity.
Qed.

Lemma T_wf (m : matrix A) :
  wf K m -> wf K (mkMatrix (nCols m) (nRows m) (tr_data K (nRows m) (nCols m) (data m))).
Proof.
  intros [Hok Hv]. split.
  - unfold shape_ok. simpl. rewrite tr_data_length. lia.
  - simpl. unfold tr_data. apply List.Forall_forall. intros a Ha.
    apply in_map_iff in Ha as (ji & <- & _).
    destruct (nth_in_or_default (snd ji * nCols m + fst ji) (data m) (k_zero K)) as [Hin | ->].
    + exact (proj1 (List.Forall_forall _ _) Hv _ Hin).
    + exact zero_valid.
Qed.

Lemma tr_data_involutive R C d :
  length d = R * C -> tr_data K C R (tr_data K R C d) = d.
Proof.
  intros Hl. apply nth_ext with (d := k_zero K) (d' := k_zero K).
  { rewrite !tr_data_length. lia. }
  intros k Hk. rewrite !tr_data_length in Hk.
  destruct (rowmajor_decomp R C k ltac:(lia)) as (i & j & Hi & Hj & ->).
  rewrite tr_data_nth by assumption. rewrite tr_data_nth by assumption. reflexivity.
Qed.

End Transpose.

Lemma kind_roundtrip (dt : dtype) (a : elt dt) :
  k_valid (kind_of dt) a = true -> k_write (kind_of dt) (k_read (kind_of dt) a) = Ok a.
Proof.
  destruct dt; simpl; intros H;
    try (apply Z.eqb_eq in H; rewrite H; reflexivity).
  - apply FloatAxioms.Leibniz.eqb_spec in H. rewrite H. reflexivity.
  - reflexivity.
Qed.

Lemma kind_zero_valid (dt : dtype) : k_valid (kind_of dt) (k_zero (kind_of dt)) = true.
Proof. destruct dt; vm_compute; reflexivity. Qed.

(** ** Sums *)

Lemma nth_map_seq {B} (F : nat -> B) n j d : j < n -> nth j (map F (seq 0 n)) d = F j.
Proof.
  intros Hj. rewrite nth_indep with (d' := F 0) by (rewrite length_map, length_seq; lia).
  rewrite map_nth, seq_nth by lia. reflexivity.
Qed.

Lemma map_seq_const {B} (x : B) k n : map (fun _ => x) (seq k n) = replicate n x.
Proof. revert k; induction n as [|n IH]; intros k; simpl; [reflexivity|]. rewrite IH. reflexivity. Qed.

Lemma ta_get_nth {A} (K : kind A) d k :
  k < length d -> ta_get K d k = k_read K (nth k d (k_zero K)).
Proof.
  intros Hk. unfold ta_get.
  destruct (nth_lookup_or_length d k (k_zero K)) as [E|E]; [rewrite E; reflexivity|lia].
Qed.

Section Sums.
Context {A : Type} (K : kind A) (P : A -> Prop) (add : A -> A -> A).
Hypothesis P_zero : P (k_zero K).
Hypothesis add_spec : forall a b, P a -> P b ->
  (let! s := js_add (k_read K a) (k_read K b) in k_write K s) = Ok (add a b) /\ P (add a b).

Lemma fold_add_P (l : list nat) (g : nat -> A) a :
  P a -> (forall o, In o l -> P (g o)) -> P (fold_left (fun acc o => add acc (g o)) l a).
Proof.
  revert a; induction l as [|o l IH]; intros a Ha Hg; simpl; [exact Ha|].
  apply IH; [|intros o' Ho'; apply Hg; right; exact Ho'].
  apply add_spec; [exact Ha | apply Hg; left; reflexivity].
Qed.

Lemma add_pass (g : nat -> A) n acc :
  n <= length acc -> Forall P acc -> (forall j, j < n -> P (g j)) ->
  res_fold (fun s j => add_at K s j (k_read K (g j))) (seq 0 n) acc
  = Ok (map (fun j => add (nth j acc (k_zero K)) (g j)) (seq 0 n) ++ drop n acc).
Proof.
  induction n as [|n IH]; intros Hn HP Hg; [reflexivity|].
  rewrite seq_S, res_fold_app.
  rewrite IH by first [lia | assumption | intros j Hj; apply Hg; lia].
  simpl.
  destruct (lookup_lt_is_Some_2 acc n ltac:(lia)) as [a Ha].
  unfold add_at, ta_get.
  rewrite lookup_app_r by (rewrite length_map, length_seq; lia).
  rewrite length_map, length_seq, Nat.sub_diag, lookup_drop, Nat.add_0_r, Ha.
  destruct (add_spec a (g n) (Forall_lookup_1 _ _ _ _ HP Ha) (Hg n ltac:(lia))) as [E _].
  destruct (js_add (k_read K a) (k_read K (g n))) as [v|] eqn:Ev; simpl in E |- *;
    [|discriminate].
  unfold ta_put. rewrite E. simpl.
  rewrite insert_app_r_alt by (rewrite length_map, length_seq; lia).
  rewrite length_map, length_seq, Nat.sub_diag.
  rewrite (drop_S acc a n Ha). simpl.
  rewrite map_app, <- app_assoc. simpl. rewrite (nth_lookup_Some acc n (k_zero K) a Ha).
  reflexivity.
Qed.

Lemma sum_loop O N (G : nat -> nat -> A) :
  (forall o j, o < O -> j < N -> P (G o j)) ->
  res_fold (fun s oj => add_at K s (snd oj) (k_read K (G (fst oj) (snd oj))))
    (nested O N) (replicate N (k_zero K))
  = Ok (map (fun j => fold_left (fun acc o => add acc (G o j)) (seq 0 O) (k_zero K)) (seq 0 N)).
Proof.
  induction O as [|O IH]; intros HG.
  - simpl. rewrite map_seq_const. reflexivity.
  - rewrite nested_S, res_fold_app, IH by (intros; apply HG; lia). simpl.
    rewrite res_fold_map. simpl.
    set (acc := map (fun j => fold_left (fun acc o => add acc (G o j)) (seq 0 O) (k_zero K))
                  (seq 0 N)).
    assert (Hacc : length acc = N) by (unfold acc; rewrite length_map, length_seq; reflexivity).
    rewrite (add_pass (G O) N acc).
    + rewrite drop_ge by lia. rewrite app_nil_r. f_equal.
      apply map_ext_in. intros j Hj. apply in_seq in Hj.
      unfold acc. rewrite nth_map_seq by lia.
      change (fold_left ?f (seq 1 O) (add (k_zero K) (G 0 j))) with (fold_left f (seq 0 (S O)) (k_zero K)).
      rewrite seq_S, fold_left_app. reflexivity.
    + lia.
    + unfold acc. apply List.Forall_forall. intros a Ha.
      apply in_map_iff in Ha as (j & <- & Hj). apply in_seq in Hj.
      apply fold_add_P; [exact P_zero|]. intros o Ho. apply in_seq in Ho. apply HG; lia.
    + intros j Hj. apply HG; lia.
Qed.

Lemma nth_P (d : list A) k : Forall P d -> P (nth k d (k_zero K)).
Proof.
  intros Hd. destruct (nth_in_or_default k d (k_zero K)) as [Hin | ->]; [|exact P_zero].
  exact (proj1 (List.Forall_forall _ _) Hd _ Hin).
Qed.

Lemma rowSum_spec (m : matrix A) :
  shape_ok m -> Forall P (data m) ->
  rowSum K m = Ok (map (fun j =>
    fold_left (fun acc i => add acc (nth (i * nCols m + j) (data m) (k_zero K)))
      (seq 0 (nRows m)) (k_zero K)) (seq 0 (nCols m))).
Proof.
  intros Hok Hd. unfold rowSum, ta_alloc.
  rewrite (res_fold_ext _ (fun s oj => add_at K s (snd oj)
             (k_read K ((fun i j => nth (i * nCols m + j) (data m) (k_zero K)) (fst oj) (snd oj))))).
  - exact (sum_loop (nRows m) (nCols m) (fun i j => nth (i * nCols m + j) (data m) (k_zero K))
             (fun o j _ _ => nth_P _ _ Hd)).
  - intros b [i j] Hx. apply in_nested in Hx. simpl in Hx |- *.
    rewrite ta_get_nth; [reflexivity|]. rewrite Hok. apply rowmajor_lt; lia.
Qed.

Lemma colSum_spec (m : matrix A) :
  shape_ok m -> Forall P (data m) ->
  colSum K m = Ok (map (fun i =>
    fold_left (fun acc j => add acc (nth (i * nCols m + j) (data m) (k_zero K)))
      (seq 0 (nCols m)) (k_zero K)) (seq 0 (nRows m))).
Proof.
  intros Hok Hd. unfold colSum, ta_alloc.
  rewrite (res_fold_ext _ (fun s oj => add_at K s (snd oj)
             (k_read K ((fun o j => nth (j * nCols m + o) (data m) (k_zero K)) (fst oj) (snd oj))))).
  - exact (sum_loop (nCols m) (nRows m) (fun o j => nth (j * nCols m + o) (data m) (k_zero K))
             (fun o j _ _ => nth_P _ _ Hd)).
  - intros b [o j] Hx. apply in_nested in Hx. simpl in Hx |- *.
    unfold item. rewrite ta_get_nth; [reflexivity|]. rewrite Hok. apply rowmajor_lt; lia.
Qed.

End Sums.

(** *** Integer kinds: sums wrap around *)

Lemma wrap_add_l s w x y : wrap s w (wrap s w x + y) = wrap s w (x + y).
Proof.
  unfold wrap. destruct s.
  - replace ((x + 2 ^ (w - 1)) mod 2 ^ w - 2 ^ (w - 1) + y + 2 ^ (w - 1))%Z
      with ((x + 2 ^ (w - 1)) mod 2 ^ w + y)%Z by ring.
    rewrite Zplus_mod_idemp_l. f_equal. f_equal. ring.
  - apply Zplus_mod_idemp_l.
Qed.

Lemma wrap_add_r s w x y : wrap s w (x + wrap s w y) = wrap s w (x + y).
Proof. rewrite Z.add_comm, wrap_add_l, Z.add_comm. reflexivity. Qed.

Lemma wrap_idem s w x : wrap s w (wrap s w x) = wrap s w x.
Proof. pose proof (wrap_add_l s w x 0) as H. rewrite !Z.add_0_r in H. exact H. Qed.

Lemma wrap_zero s w : (0 < w)%Z -> wrap s w 0 = 0%Z.
Proof.
  intros Hw. unfold wrap. destruct s.
  - assert (E : (2 ^ w = 2 * 2 ^ (w - 1))%Z)
      by (rewrite <- Z.pow_succ_r by lia; f_equal; lia).
    assert (0 < 2 ^ (w - 1))%Z by (apply Z.pow_pos_nonneg; lia).
    rewrite Z.add_0_l, Z.mod_small by lia. lia.
  - apply Z.mod_0_l. apply Z.pow_nonzero; lia.
Qed.

Lemma wrap_range s w z : (0 < w)%Z -> (- 2 ^ w <= wrap s w z < 2 ^ w)%Z.
Proof.
  intros Hw. unfold wrap.
  assert (Hp : (0 < 2 ^ w)%Z) by (apply Z.pow_pos_nonneg; lia).
  destruct s.
  - assert (E : (2 ^ w = 2 * 2 ^ (w - 1))%Z)
      by (rewrite <- Z.pow_succ_r by lia; f_equal; lia).
    pose proof (Z.mod_pos_bound (z + 2 ^ (w - 1)) (2 ^ w) Hp). lia.
  - pose proof (Z.mod_pos_bound z (2 ^ w) Hp). lia.
Qed.

Lemma int_add_spec big signed w :
  (0 < w)%Z -> big = true \/ (w <= 52)%Z ->
  forall a b, wrap signed w a = a -> wrap signed w b = b ->
  (let! s := js_add (k_read (int_kind big signed w) a) (k_read (int_kind big signed w) b) in
   k_write (int_kind big signed w) s) = Ok (wrap signed w (a + b)) /\
  wrap signed w (wrap signed w (a + b)) = wrap signed w (a + b).
Proof.
  intros Hw Hbig a b Ha Hb. split; [|apply wrap_idem].
  destruct big; simpl; [reflexivity|].
  destruct Hbig as [Hbig|Hbig]; [discriminate|].
  pose proof (wrap_range signed w a Hw) as Ra. pose proof (wrap_range signed w b Hw) as Rb.
  rewrite Ha in Ra. rewrite Hb in Rb.
  assert (Hle : (2 ^ w <= 2 ^ 52)%Z) by (apply Z.pow_le_mono_r; lia).
  unfold num_of_Z, max_safe.
  replace (Z.abs (a + b) <=? 2 ^ 53)%Z with true.
  - reflexivity.
  - symmetry. apply Z.leb_le.
    assert (E : (2 ^ 53 = 2 * 2 ^ 52)%Z) by reflexivity. lia.
Qed.

Lemma fold_wrap_add s w (g : nat -> Z) l a :
  wrap s w a = a ->
  fold_left (fun acc o => wrap s w (acc + g o)) l a = wrap s w (a + zsum (map g l)).
Proof.
  revert a; induction l as [|o l IH]; intros a Ha; simpl.
  - rewrite Z.add_0_r. symmetry; exact Ha.
  - rewrite IH by apply wrap_idem. rewrite wrap_add_l. f_equal. ring.
Qed.

Lemma zsum_app l1 l2 : zsum (l1 ++ l2) = (zsum l1 + zsum l2)%Z.
Proof. unfold zsum. rewrite fold_right_app. induction l1 as [|x l1 IH]; simpl; lia. Qed.

Lemma zsum_map_add {B} (f g : B -> Z) l :
  zsum (map (fun x => f x + g x)%Z l) = (zsum (map f l) + zsum (map g l))%Z.
Proof. induction l as [|x l IH]; simpl; [reflexivity|]. unfold zsum in *. simpl. lia. Qed.

Lemma wrap_zsum_map {B} s w (f : B -> Z) l :
  wrap s w (zsum (map (fun x => wrap s w (f x)) l)) = wrap s w (zsum (map f l)).
Proof.
  induction l as [|x l IH]; [reflexivity|]. unfold zsum in *. simpl.
  rewrite wrap_add_l, <- wrap_add_r, IH, wrap_add_r. reflexivity.
Qed.

Lemma nested_reconstruct {B} R C (d : list B) z :
  length d = R * C -> map (fun ij => nth (fst ij * C + snd ij) d z) (nested R C) = d.
Proof.
  intros Hl. apply nth_ext with (d := z) (d' := z).
  { rewrite length_map, nested_length. lia. }
  intros k Hk. rewrite length_map, nested_length in Hk.
  destruct (rowmajor_decomp R C k Hk) as (i & j & Hi & Hj & ->).
  set (f := fun ij : nat * nat => nth (fst ij * C + snd ij) d z).
  rewrite (nth_indep _ z (f (0, 0))) by (rewrite length_map, nested_length; lia).
  rewrite map_nth. unfold f. rewrite nested_nth by assumption. reflexivity.
Qed.

Lemma zsum_rows R C (F : nat -> nat -> Z) :
  zsum (map (fun i => zsum (map (fun j => F i j) (seq 0 C))) (seq 0 R))
  = zsum (map (fun ij => F (fst ij) (snd ij)) (nested R C)).
Proof.
  induction R as [|R IH]; [reflexivity|].
  rewrite seq_S, nested_S, !map_app, !zsum_app, IH, map_map. simpl.
  unfold zsum at 2. simpl. rewrite Z.add_0_r. reflexivity.
Qed.

Lemma zsum_swap R C (F : nat -> nat -> Z) :
  zsum (map (fun j => zsum (map (fun i => F i j) (seq 0 R))) (seq 0 C))
  = zsum (map (fun i => zsum (map (fun j => F i j) (seq 0 C))) (seq 0 R)).
Proof.
  induction R as [|R IH].
  - cbn [seq map]. unfold zsum. cbn [fold_right].
    induction (seq 0 C) as [|x l IHl]; cbn [map fold_right]; lia.
  - rewrite seq_S, map_app, zsum_app, <- IH.
    rewrite (map_ext (fun j => zsum (map (fun i => F i j) (seq 0 R ++ [R])))
               (fun j => zsum (map (fun i => F i j) (seq 0 R)) + F R j)%Z).
    + rewrite zsum_map_add. unfold zsum at 4. simpl. rewrite Z.add_0_r. reflexivity.
    + intros j. rewrite map_app, zsum_app. unfold zsum at 2. simpl. rewrite Z.add_0_r.
      reflexivity.
Qed.

Lemma float_add_spec single a b :
  (let! s := js_add (k_read (float_kind single) a) (k_read (float_kind single) b) in
   k_write (float_kind single) s) = Ok (if single then fround (a + b) else (a + b))%float.
Proof. reflexivity. Qed.

Lemma nested_zero_r n : nested n 0 = [].
Proof. unfold nested. induction (seq 0 n) as [|i l IH]; [reflexivity|exact IH]. Qed.

Section SumsOk.
Context {A : Type} (K : kind A) (P : A -> Prop) (add : A -> A -> A).
Hypothesis P_zero : P (k_zero K).
Hypothesis add_spec : forall a b, P a -> P b ->
  (let! s := js_add (k_read K a) (k_read K b) in k_write K s) = Ok (add a b) /\ P (add a b).

Lemma sums_ok (m : matrix A) :
  shape_ok m -> Forall P (data m) ->
  exists rs cs, rowSum K m = Ok rs /\ length rs = nCols m /\
                colSum K m = Ok cs /\ length cs = nRows m.
Proof.
  intros Hok Hd. do 2 eexists.
  split; [exact (rowSum_spec K P add P_zero add_spec m Hok Hd)|].
  split; [rewrite length_map, length_seq; reflexivity|].
  split; [exact (colSum_spec K P add P_zero add_spec m Hok Hd)|].
  rewrite length_map, length_seq; reflexivity.
Qed.

End SumsOk.

Lemma sums_ok_kind (dt : dtype) (m : matrix (elt dt)) :
  wf (kind_of dt) m ->
  exists rs cs, rowSum (kind_of dt) m = Ok rs /\ length rs = nCols m /\
                colSum (kind_of dt) m = Ok cs /\ length cs = nRows m.
Proof.
  intros [Hok Hv].
  destruct dt; cbn [kind_of elt] in *;
    lazymatch goal with
    | |- context [int_kind ?big ?sg ?w] =>
        apply (sums_ok (int_kind big sg w) (fun a => wrap sg w a = a)
                 (fun a b => wrap sg w (a + b)));
        [ apply wrap_zero; lia
        | intros a b Ha Hb; apply int_add_spec; auto; lia
        | exact Hok
        | refine (Forall_impl _ _ _ Hv _); intros a Ha; apply Z.eqb_eq; exact Ha ]
    | |- context [float_kind ?sg] =>
        apply (sums_ok (float_kind sg) (fun _ => True)
                 (fun a b => if sg then fround (a + b) else (a + b))%float);
        [ exact I
        | intros a b _ _; split; [apply float_add_spec | exact I]
        | exact Hok
        | refine (Forall_impl _ _ _ Hv _); intros; exact I ]
    end.
Qed.

(** ** Means *)

Section Means.
Context {A : Type} (K : kind A).

Lemma div_loop (v : jsval) (l1 l2 : list A) :
  res_fold (fun s i => let! q := js_div (ta_get K s i) v in ta_put K s i q)
    (seq (length l1) (length l2)) (l1 ++ l2)
  = let! ys := res_map (fun a => let! q := js_div (k_read K a) v in k_write K q) l2 in
    Ok (l1 ++ ys).
Proof.
  revert l1; induction l2 as [|x l2 IH]; intros l1; [reflexivity|].
  cbn [length seq res_fold res_map].
  unfold ta_get at 1. rewrite lookup_app_r by lia. rewrite Nat.sub_diag. cbn [lookup list_lookup].
  destruct (js_div (k_read K x) v) as [q|e]; cbn [res_bind]; [|reflexivity].
  unfold ta_put. destruct (k_write K q) as [y|e]; cbn [res_bind]; [|reflexivity].
  rewrite insert_app_r_alt by lia. rewrite Nat.sub_diag. cbn [insert list_insert].
  replace (S (length l1)) with (length (l1 ++ [y])) by (rewrite length_app; simpl; lia).
  replace (l1 ++ y :: l2) with ((l1 ++ [y]) ++ l2) by (rewrite <- app_assoc; reflexivity).
  rewrite IH.
  destruct (res_map _ l2) as [ys|e]; cbn [res_bind]; [|reflexivity].
  rewrite <- app_assoc. reflexivity.
Qed.

Lemma div_all_map (sum : list A) (v : jsval) :
  div_all K sum v = res_map (fun a => let! q := js_div (k_read K a) v in k_write K q) sum.
Proof.
  unfold div_all. pose proof (div_loop v [] sum) as H. simpl in H. rewrite H.
  destruct (res_map _ sum); reflexivity.
Qed.

End Means.

Lemma is_bigint_read (dt : dtype) (a : elt dt) :
  is_bigint (k_read (kind_of dt) a) = is_wide dt.
Proof. destruct dt; reflexivity. Qed.

Lemma count_divisor_kind (dt : dtype) (m : matrix (elt dt)) n :
  data m <> [] ->
  count_divisor (kind_of dt) m n =
    if is_wide dt then JBig (Z.of_nat n) else num_of_Z (Z.of_nat n).
Proof.
  intros Hd. unfold count_divisor, ta_get.
  destruct (data m) as [|a d]; [contradiction|]. cbn [lookup list_lookup].
  rewrite is_bigint_read. reflexivity.
Qed.

(** ** Floats: multiplying by one is exact *)

Lemma one_sf : Prim2SF 1%float = S754_finite false 4503599627370496 (-52).
Proof. reflexivity. Qed.

Lemma mul_iter_xO m n : Pos.mul m (Nat.iter n xO 1%positive) = Nat.iter n xO m.
Proof. induction n as [|n IH]; simpl; [apply Pos.mul_1_r|]. rewrite Pos.mul_xO_r, IH. reflexivity. Qed.

Lemma digits_iter_xO m n :
  Zpos (digits2_pos (Nat.iter n xO m)) = (Zpos (digits2_pos m) + Z.of_nat n)%Z.
Proof.
  induction n as [|n IH]; simpl Nat.iter; [simpl; lia|].
  cbn [digits2_pos]. rewrite Pos2Z.inj_succ, IH. lia.
Qed.

Lemma shr_iter_xO m :
  SpecFloat.iter_pos shr_1 52 {| shr_m := Zpos (Nat.iter 52 xO m); shr_r := false; shr_s := false |}
  = {| shr_m := Zpos m; shr_r := false; shr_s := false |}.
Proof. reflexivity. Qed.

Lemma float_mul_1_r (a : float) : (a * 1)%float = a.
Proof.
  apply Prim2SF_inj. rewrite mul_spec, one_sf.
  pose proof (Prim2SF_valid a) as Hv.
  destruct (Prim2SF a) as [s|s| |s m e]; try reflexivity.
  - simpl. rewrite Bool.xorb_false_r. reflexivity.
  - simpl. rewrite Bool.xorb_false_r. reflexivity.
  - unfold SF64mul, SFmul. rewrite Bool.xorb_false_r.
    change 4503599627370496%positive with (Nat.iter 52 xO 1%positive).
    rewrite mul_iter_xO.
    simpl in Hv. unfold bounded, canonical_mantissa in Hv.
    apply andb_prop in Hv as [Hc Hb]. apply Z.eqb_eq in Hc. apply Z.leb_le in Hb.
    unfold binary_round_aux, shr_fexp.
    assert (E1 : (fexp prec emax (Zdigits2 (Zpos (Nat.iter 52 xO m)) + (e + -52))
                  - (e + -52) = 52)%Z).
    { cbn [Zdigits2]. rewrite digits_iter_xO.
      replace (Zpos (digits2_pos m) + Z.of_nat 52 + (e + -52))%Z
        with (Zpos (digits2_pos m) + e)%Z by (change (Z.of_nat 52) with 52%Z; lia).
      lia. }
    rewrite E1.
    cbn [shr shr_record_of_loc]. rewrite shr_iter_xO.
    cbn [loc_of_shr_record round_nearest_even shr_m].
    replace (fexp prec emax (Zdigits2 (Zpos m) + (e + -52 + 52)) - (e + -52 + 52))%Z
      with 0%Z by (cbn [Zdigits2]; replace (e + -52 + 52)%Z with e by lia; lia).
    cbn [shr shr_record_of_loc shr_m].
    replace (e + -52 + 52)%Z with e by lia.
    rewrite (proj2 (Z.leb_le _ _) Hb). reflexivity.
Qed.

(** ** multiplyDiags *)

Lemma fold_left_map_pairs {B C D} (f : B -> C -> B) (g : D -> C) l a :
  fold_left f (map g l) a = fold_left (fun acc x => f acc (g x)) l a.
Proof. revert a; induction l as [|x l IH]; intros a; simpl; [reflexivity|apply IH]. Qed.

Lemma fold_insert_length {B} (key : nat -> nat) (v : nat -> B) l (buf : list B) :
  length (fold_left (fun buf b => <[key b := v b]> buf) l buf) = length buf.
Proof.
  revert buf; induction l as [|b l IH]; intros buf; simpl; [reflexivity|].
  rewrite IH, length_insert. reflexivity.
Qed.

Lemma row_pass {B} (v : nat -> B) base L (buf : list B) k :
  fold_left (fun buf b => <[base + b := v b]> buf) (seq 0 L) buf !! k =
    if (base <=? k) && (k <? base + L) && (k <? length buf) then Some (v (k - base))
    else buf !! k.
Proof.
  induction L as [|L IH].
  - rewrite Nat.add_0_r. destruct (base <=? k) eqn:E1, (k <? base) eqn:E2; simpl; try reflexivity.
    apply Nat.leb_le in E1. apply Nat.ltb_lt in E2. lia.
  - rewrite seq_S, fold_left_app. simpl.
    rewrite list_lookup_insert. rewrite fold_insert_length.
    destruct (decide (base + L = k /\ base + L < length buf)) as [[<- Hk]|Hne].
    + rewrite (proj2 (Nat.leb_le _ _)) by lia.
      rewrite (proj2 (Nat.ltb_lt (base + L) (base + S L))) by lia.
      rewrite (proj2 (Nat.ltb_lt _ _) Hk). simpl. f_equal. f_equal. lia.
    + rewrite IH.
      destruct (base <=? k) eqn:E1, (k <? base + L) eqn:E2, (k <? base + S L) eqn:E3,
               (k <? length buf) eqn:E4; simpl; try reflexivity;
        apply Nat.leb_le in E1 || apply Nat.leb_gt in E1;
        apply Nat.ltb_lt in E2 || apply Nat.ltb_ge in E2;
        apply Nat.ltb_lt in E3 || apply Nat.ltb_ge in E3;
        apply Nat.ltb_lt in E4 || apply Nat.ltb_ge in E4;
        exfalso; first [lia | apply Hne; split; lia].
Qed.

Lemma diag_fold R C L (cell : nat -> nat -> float) (buf : list float) r :
  length buf = R * C -> r <= R ->
  let out := fold_left (fun buf ij => <[fst ij * C + snd ij := cell (fst ij) (snd ij)]> buf)
               (nested r L) buf in
  length out = R * C /\
  forall i j, i < R -> j < C ->
    (i < r -> out !! (i * C + j) =
       Some (if j <? L then cell i j else nth (i * C + j) buf 0%float)) /\
    (L <= C -> r <= i -> out !! (i * C + j) = buf !! (i * C + j)).
Proof.
  intros Hl. induction r as [|r IH]; intros Hr out.
  - split; [exact Hl|]. intros i j _ _. split; [lia|reflexivity].
  - destruct (IH ltac:(lia)) as [Hl0 H0].
    set (out0 := fold_left _ (nested r L) buf) in *.
    assert (Hout : out = fold_left (fun buf b => <[r * C + b := cell r b]> buf) (seq 0 L) out0).
    { unfold out, out0. rewrite nested_S, fold_left_app, fold_left_map_pairs. reflexivity. }
    split; [rewrite Hout, fold_insert_length; exact Hl0|].
    intros i j Hi Hj. rewrite Hout, row_pass, Hl0.
    assert (HiC : i * C + j < R * C) by (apply rowmajor_lt; lia).
    destruct (Nat.lt_trichotomy i r) as [Hlt|[->|Hgt]].
    + assert (i * C + C <= r * C) by nia.
      rewrite (proj2 (Nat.leb_gt (r * C) (i * C + j))) by lia. simpl.
      split; [intros _; apply (proj1 (H0 i j Hi Hj) Hlt)|lia].
    + rewrite (proj2 (Nat.leb_le _ _)) by lia.
      rewrite (proj2 (Nat.ltb_lt _ (R * C)) HiC), andb_true_r.
      split; [|lia]. intros _.
      destruct (Nat.ltb_spec j L) as [HjL|HjL].
      * rewrite (proj2 (Nat.ltb_lt _ _)) by lia. simpl. f_equal. f_equal. lia.
      * rewrite (proj2 (Nat.ltb_ge _ _)) by lia. simpl.
        rewrite (proj2 (H0 r j Hi Hj)) by lia.
        destruct (nth_lookup_or_length buf (r * C + j) 0%float) as [E|E]; [exact E|lia].
    + split; [lia|]. intros HLC _.
      assert (r * C + C <= i * C) by nia.
      rewrite (proj2 (Nat.ltb_ge (i * C + j) (r * C + L))) by lia.
      rewrite andb_false_r. simpl. apply (proj2 (H0 i j Hi Hj)); lia.
Qed.

Lemma matrix_ext {A} (a b : matrix A) :
  nRows a = nRows b -> nCols a = nCols b -> shape_ok a -> shape_ok b ->
  (forall i j, i < nRows a -> j < nCols a ->
     data a !! (i * nCols a + j) = data b !! (i * nCols a + j)) ->
  a = b.
Proof.
  destruct a as [R C da], b as [R' C' db]; simpl; intros <- <- Ha Hb H.
  unfold shape_ok in Ha, Hb; simpl in Ha, Hb. f_equal.
  apply list_eq. intros k.
  destruct (decide (k < R * C)) as [Hk|Hk].
  - destruct (rowmajor_decomp R C k Hk) as (i & j & Hi & Hj & ->). apply H; assumption.
  - rewrite !lookup_ge_None_2 by lia. reflexivity.
Qed.

Lemma nan_mul_l (b : float) : (nan * b)%float = nan.
Proof. apply FloatAxioms.Prim2SF_inj. rewrite FloatAxioms.mul_spec. reflexivity. Qed.

Lemma multiplyDiags_buf (x : matrix float) (y : list float) :
  multiplyDiags x y =
    mkMatrix (nRows x) (nCols x)
      (fold_left (fun buf ij => <[fst ij * nCols x + snd ij :=
           (fun i j => match data x !! (i * nCols x + j), y !! j with
                       | Some a, Some b => PrimFloat.mul a b | _, _ => nan end)
             (fst ij) (snd ij)]> buf)
         (nested (nRows x) (length y)) (ta_alloc f64K (length (data x)))).
Proof.
  unfold multiplyDiags, md_wrap. cbn [fst snd].
  assert (Hl : forall ij, In ij (nested (nRows x) (length y)) -> snd ij < length y)
    by (intros [i j] Hij; apply in_nested in Hij; simpl in Hij |- *; lia).
  generalize (ta_alloc f64K (length (data x))).
  induction (nested (nRows x) (length y)) as [|[i j] l IH]; intros buf; [reflexivity|].
  cbn [fold_left fst snd]. rewrite <- IH by (intros ij Hij; apply Hl; right; exact Hij).
  f_equal. unfold md_setCell, md_item. cbn [nRows nCols data]. f_equal. f_equal.
  assert (Hj : j < length y) by exact (Hl (i, j) (or_introl eq_refl)).
  destruct (lookup_lt_is_Some_2 y j Hj) as [b Hb].
  rewrite Hb. rewrite (nth_lookup_Some y j 0%float b Hb).
  destruct (data x !! _); [reflexivity|apply nan_mul_l].
Qed.

Lemma multiplyDiags_nRows (x : matrix float) (y : list float) :
  nRows (multiplyDiags x y) = nRows x.
Proof. rewrite multiplyDiags_buf. reflexivity. Qed.

Lemma multiplyDiags_nCols (x : matrix float) (y : list float) :
  nCols (multiplyDiags x y) = nCols x.
Proof. rewrite multiplyDiags_buf. reflexivity. Qed.

Lemma multiplyDiags_cells (x : matrix float) (y : list float) :
  shape_ok x ->
  shape_ok (multiplyDiags x y) /\
  forall i j, i < nRows x -> j < nCols x ->
    data (multiplyDiags x y) !! (i * nCols x + j) =
      Some (match y !! j with
            | Some b => (nth (i * nCols x + j) (data x) 0 * b)%float
            | None => 0%float
            end).
Proof.
  intros Hok.
  set (cell := fun i j => match data x !! (i * nCols x + j), y !! j with
                          | Some a, Some b => PrimFloat.mul a b | _, _ => nan end).
  assert (Hl : length (replicate (length (data x)) 0%float) = nRows x * nCols x)
    by (rewrite length_replicate; exact Hok).
  destruct (diag_fold (nRows x) (nCols x) (length y) cell _ (nRows x) Hl (le_n _)) as [Hlen Hc].
  assert (Hd : data (multiplyDiags x y) =
     fold_left (fun buf ij => <[fst ij * nCols x + snd ij := cell (fst ij) (snd ij)]> buf)
       (nested (nRows x) (length y)) (replicate (length (data x)) 0%float))
    by (rewrite multiplyDiags_buf; reflexivity).
  split; [unfold shape_ok; rewrite Hd, multiplyDiags_nRows, multiplyDiags_nCols; exact Hlen|].
  intros i j Hi Hj. rewrite Hd, (proj1 (Hc i j Hi Hj) Hi).
  f_equal. unfold cell.
  destruct (nth_lookup_or_length (data x) (i * nCols x + j) 0%float) as [E|E];
    [|unfold shape_ok in Hok; pose proof (rowmajor_lt _ _ _ _ Hi Hj); lia].
  rewrite E.
  destruct (Nat.ltb_spec j (length y)) as [Hy|Hy].
  - destruct (lookup_lt_is_Some_2 y j Hy) as [b Hb]. rewrite Hb. reflexivity.
  - rewrite (lookup_ge_None_2 y j Hy).
    apply nth_lookup_Some, lookup_replicate_2. rewrite Hok. apply rowmajor_lt; lia.
Qed.

(** ** Rows, items and filter *)

Lemma length_concat_const {B} (l : list (list B)) n :
  Forall (fun r => length r = n) l -> length (concat l) = length l * n.
Proof.
  induction 1 as [|r l Hr _ IH]; simpl; [reflexivity|].
  rewrite length_app, Hr, IH. reflexivity.
Qed.

Lemma row_take {A} (m : matrix A) n :
  shape_ok m -> n < nRows m -> row m n = take (nCols m) (drop (n * nCols m) (data m)).
Proof.
  intros Hok Hn. unfold row, ta_slice. unfold shape_ok in Hok. rewrite Hok.
  rewrite Nat.min_l by nia. f_equal. simpl. lia.
Qed.

Lemma row_length {A} (m : matrix A) n :
  shape_ok m -> n < nRows m -> length (row m n) = nCols m.
Proof.
  intros Hok Hn. rewrite row_take by assumption.
  unfold shape_ok in Hok. rewrite length_take, length_drop, Hok. nia.
Qed.

Lemma row_past {A} (m : matrix A) n :
  shape_ok m -> nRows m <= n -> row m n = [].
Proof.
  intros Hok Hn. unfold row, ta_slice. unfold shape_ok in Hok. rewrite Hok.
  rewrite Nat.min_r by nia. replace (nRows m * nCols m - n * nCols m) with 0 by nia.
  apply take_0.
Qed.

Lemma concat_row_prefix {A} (m : matrix A) k :
  shape_ok m -> k <= nRows m -> concat (map (row m) (seq 0 k)) = take (k * nCols m) (data m).
Proof.
  intros Hok. induction k as [|k IH]; intros Hk; [reflexivity|].
  rewrite seq_S, map_app, concat_app, IH by lia. simpl. rewrite app_nil_r.
  rewrite row_take by (assumption || lia). rewrite take_take_drop. f_equal. lia.
Qed.

Lemma filter_true_id {B} (f : B -> bool) l :
  (forall x, In x l -> f x = true) -> List.filter f l = l.
Proof.
  induction l as [|x l IH]; intros H; simpl; [reflexivity|].
  rewrite (H x) by (left; reflexivity). f_equal. apply IH. intros y Hy. apply H. right; exact Hy.
Qed.

Section Filter.
Context {A : Type} (K : kind A).

Lemma setRow_ta_loop (C L : nat) (rs : list (list A)) (z : A) n :
  length rs = L -> Forall (fun r => length r = C) rs -> n <= L ->
  res_fold (fun mat i => setRow_ta mat i (nth i rs [])) (seq 0 n)
    (mkMatrix L C (replicate (L * C) z))
  = Ok (mkMatrix L C (concat (take n rs) ++ replicate ((L - n) * C) z)).
Proof.
  intros HL Hrs. induction n as [|n IH]; intros Hn.
  - simpl. rewrite Nat.sub_0_r. reflexivity.
  - rewrite seq_S, res_fold_app, IH by lia. simpl.
    destruct (lookup_lt_is_Some_2 rs n ltac:(lia)) as [r Hr].
    rewrite (nth_lookup_Some rs n [] r Hr).
    assert (HrC : length r = C) by exact (Forall_lookup_1 _ _ _ _ Hrs Hr).
    assert (Hpre : length (concat (take n rs)) = n * C).
    { rewrite (length_concat_const _ C) by (apply Forall_take; exact Hrs).
      rewrite length_take. f_equal. lia. }
    unfold setRow_ta, ta_set_array. simpl.
    rewrite length_app, length_replicate, Hpre, HrC.
    rewrite (proj2 (Nat.ltb_ge _ _)) by nia. simpl.
    rewrite take_app_length' by (symmetry; exact Hpre).
    rewrite drop_app_ge by lia. rewrite Hpre, drop_replicate.
    rewrite (take_S_r rs n r Hr), concat_app. simpl. rewrite app_nil_r, <- app_assoc.
    unfold with_data. simpl. do 4 f_equal. replace (L - n) with (S (L - S n)) by lia. simpl. f_equal. set (X := (L - S n) * C). set (Y := n * C). lia.
Qed.

Lemma filter_spec (m : matrix A) (fn : list A -> nat -> bool) :
  shape_ok m ->
  let kept := List.filter (fun i => fn (row m i) i) (seq 0 (nRows m)) in
  filter K m fn = Ok (mkMatrix (length kept) (nCols m) (concat (map (row m) kept))).
Proof.
  intros Hok kept. unfold filter. fold kept. simpl.
  rewrite (res_fold_ext _ (fun mat i => setRow_ta mat i (nth i (map (row m) kept) []))).
  - unfold ta_alloc.
    rewrite (setRow_ta_loop (nCols m) (length kept) (map (row m) kept) (k_zero K) (length kept)).
    + rewrite firstn_all2 by (rewrite length_map; lia). rewrite Nat.sub_diag. simpl.
      rewrite app_nil_r. reflexivity.
    + apply length_map.
    + apply List.Forall_forall. intros r Hr. apply in_map_iff in Hr as (i & <- & Hi).
      unfold kept in Hi. apply filter_In in Hi as [Hi _]. apply in_seq in Hi.
      apply row_length; [exact Hok | lia].
    + lia.
  - intros mat i Hi. apply in_seq in Hi. f_equal.
    rewrite (nth_indep _ [] (row m 0)) by (rewrite length_map; lia).
    rewrite map_nth. reflexivity.
Qed.

End Filter.

(** ** Columns *)

Lemma res_fold_err {A B} (f : B -> A -> res B) e0 l acc e :
  (forall b x e, f b x = Err e -> e = e0) -> res_fold f l acc = Err e -> e = e0.
Proof.
  revert acc; induction l as [|x l IH]; intros acc Hf H; simpl in H; [discriminate|].
  destruct (f acc x) as [b|e'] eqn:E; simpl in H.
  - exact (IH b Hf H).
  - injection H as <-. exact (Hf _ _ _ E).
Qed.

Lemma col_loop {A} (K : kind A) (m : matrix A) n (f : nat -> A) :
  (forall i, i < nRows m -> k_write K (ta_get K (data m) (i * nCols m + n)) = Ok (f i)) ->
  col K m n = Ok (map f (seq 0 (nRows m))).
Proof.
  intros Hf. unfold col. rewrite (fill_loop K _ f).
  - unfold ta_alloc. rewrite drop_ge by (rewrite length_replicate; lia).
    rewrite app_nil_r. reflexivity.
  - unfold ta_alloc. rewrite length_replicate. lia.
  - exact Hf.
Qed.

Lemma ta_get_write_valid (dt : dtype) (d : list (elt dt)) k u :
  Forall (fun a => k_valid (kind_of dt) a = true) d ->
  k_write (kind_of dt) JUndef = Ok u ->
  k_write (kind_of dt) (ta_get (kind_of dt) d k) = Ok (nth k d u).
Proof.
  intros Hv Hu. unfold ta_get.
  destruct (nth_lookup_or_length d k u) as [E|E].
  - rewrite E. apply kind_roundtrip. exact (Forall_lookup_1 _ _ _ _ Hv E).
  - rewrite (lookup_ge_None_2 d k E). rewrite nth_overflow by exact E. exact Hu.
Qed.

Lemma col_wide_undef (dt : dtype) (m : matrix (elt dt)) n :
  is_wide dt = true -> shape_ok m -> nCols m <= n -> 0 < nRows m ->
  col (kind_of dt) m n = Err ETypeError.
Proof.
  intros Hw Hok Hn HR. unfold col.
  replace (nRows m) with (S (nRows m - 1)) at 1 by lia.
  rewrite seq_S, res_fold_app. simpl.
  assert (Hput : forall b x e, ta_put (kind_of dt) b x (ta_get (kind_of dt) (data m) (x * nCols m + n)) = Err e -> e = ETypeError).
  { intros b x e. unfold ta_put, ta_get.
    destruct (data m !! (x * nCols m + n)) as [a|];
      destruct dt; try discriminate; simpl; intros H; try discriminate; inversion H; reflexivity. }
  assert (Hlast : forall b, ta_put (kind_of dt) b (nRows m - 1)
                    (ta_get (kind_of dt) (data m) ((nRows m - 1) * nCols m + n)) = Err ETypeError).
  { intros b. unfold ta_get. rewrite lookup_ge_None_2.
    - destruct dt; try discriminate; reflexivity.
    - unfold shape_ok in Hok. rewrite Hok.
      replace (nRows m) with (S (nRows m - 1)) at 1 by lia. simpl. lia. }
  destruct (res_fold _ (seq 0 (nRows m - 1)) _) as [b|e] eqn:E; simpl.
  - rewrite Hlast. reflexivity.
  - f_equal. exact (res_fold_err _ _ _ _ _ Hput E).
Qed.

(** ** Single-cell stores *)

Lemma with_data_same {A} (m : matrix A) : with_data m (data m) = m.
Proof. destruct m; reflexivity. Qed.

Lemma setCell_ok {A} (K : kind A) (m : matrix A) r c v a :
  k_write K v = Ok a ->
  setCell K m r c v = Ok (with_data m (<[r * nCols m + c := a]> (data m))).
Proof. intros H. unfold setCell, ta_put. rewrite H. reflexivity. Qed.

Lemma ta_get_insert {A} (K : kind A) d k a k' :
  ta_get K (<[k := a]> d) k' =
    if (k' =? k) && (k <? length d) then k_read K a else ta_get K d k'.
Proof.
  unfold ta_get. rewrite list_lookup_insert.
  destruct (decide (k = k' /\ k < length d)) as [[-> Hk]|Hn].
  - rewrite Nat.eqb_refl, (proj2 (Nat.ltb_lt _ _) Hk). reflexivity.
  - destruct (Nat.eqb_spec k' k) as [->|]; destruct (Nat.ltb_spec k (length d)); simpl;
      try reflexivity; exfalso; apply Hn; split; auto.
Qed.

(** ** Integer cells: setAdd *)

Lemma wrap_small_abs s w z : (0 < w)%Z -> wrap s w z = z -> (Z.abs z <= 2 ^ w)%Z.
Proof. intros Hw E. pose proof (wrap_range s w z Hw). rewrite E in H. lia. Qed.

Lemma setAdd_int_step (big signed : bool) (w : Z) (m : matrix Z) k r c (old u : Z) :
  (0 < w)%Z -> (big = true \/ (w <= 32)%Z) -> wrap signed w old = old ->
  (big = true \/ (Z.abs u <= 2 ^ 52)%Z) ->
  k = r * nCols m + c -> data m !! k = Some old ->
  setAdd (int_kind big signed w) m r c (if big then JBig u else JInt u) =
    Ok (with_data m (<[k := wrap signed w (old + u)]> (data m))).
Proof.
  intros Hw Hbig Hold Hu -> Hk. unfold setAdd, ta_get. simpl. rewrite Hk. simpl.
  destruct big; simpl; [reflexivity|].
  destruct Hbig as [Hbig|Hbig]; [discriminate|]. destruct Hu as [Hu|Hu]; [discriminate|].
  pose proof (wrap_small_abs _ _ _ Hw Hold) as Ho.
  assert (Hle : (2 ^ w <= 2 ^ 32)%Z) by (apply Z.pow_le_mono_r; lia).
  unfold num_of_Z, max_safe.
  replace (Z.abs (old + u) <=? 2 ^ 53)%Z with true; [reflexivity|].
  symmetry. apply Z.leb_le.
  assert (E1 : (2 ^ 53 = 2 ^ 32 * 2 ^ 21)%Z) by reflexivity.
  assert (E2 : (2 ^ 53 = 2 * 2 ^ 52)%Z) by reflexivity.
  assert (E3 : (2 ^ 32 <= 2 ^ 52)%Z) by (apply Z.pow_le_mono_r; lia). lia.
Qed.

(** ** dot *)

Lemma float_mul_comm (x y : float) : (x * y)%float = (y * x)%float.
Proof.
  apply Prim2SF_inj. rewrite !mul_spec. unfold SF64mul, SFmul.
  destruct (Prim2SF x), (Prim2SF y); try reflexivity;
    try (rewrite Bool.xorb_comm; reflexivity).
  rewrite Bool.xorb_comm, Pos.mul_comm, Z.add_comm. reflexivity.
Qed.

Lemma js_mul_comm (a b : jsval) : js_mul a b = js_mul b a.
Proof.
  destruct a, b; cbn;
    try rewrite Z.mul_comm; try rewrite float_mul_comm; reflexivity.
Qed.

Lemma is_bigint_first (dt : dtype) (d1 d2 : list (elt dt)) :
  length d1 = length d2 ->
  is_bigint (ta_get (kind_of dt) d1 0) = is_bigint (ta_get (kind_of dt) d2 0).
Proof.
  destruct d1 as [|x d1], d2 as [|y d2]; simpl; intros H; try discriminate; [reflexivity|].
  unfold ta_get. simpl. rewrite !is_bigint_read. reflexivity.
Qed.

Lemma dot_big_loop signed w (a b : matrix Z) (l : list (nat * nat)) s :
  (forall ji, In ji l -> snd ji * nCols a + fst ji < length (data a) /\
                         snd ji * nCols b + fst ji < length (data b)) ->
  res_fold (fun r ji =>
      let! adder := js_mul (item (int_kind true signed w) a (snd ji) (fst ji))
                           (item (int_kind true signed w) b (snd ji) (fst ji)) in
      js_add r adder) l (JBig s)
  = Ok (JBig (s + zsum (map (fun ji =>
           nth (snd ji * nCols a + fst ji) (data a) 0 *
           nth (snd ji * nCols b + fst ji) (data b) 0) l))%Z).
Proof.
  revert s; induction l as [|ji l IH]; intros s Hin; simpl.
  - rewrite Z.add_0_r. reflexivity.
  - destruct (Hin ji (or_introl eq_refl)) as [Ha Hb].
    unfold item. rewrite !ta_get_nth by assumption. simpl.
    rewrite IH by (intros x Hx; apply Hin; right; exact Hx).
    unfold zsum. simpl. f_equal. f_equal. lia.
Qed.

Lemma zsum_col_major R C (G : nat -> nat -> Z) :
  zsum (map (fun ji => G (snd ji) (fst ji)) (nested C R))
  = zsum (map (fun ij => G (fst ij) (snd ij)) (nested R C)).
Proof.
  rewrite <- (zsum_rows C R (fun j i => G i j)).
  rewrite (zsum_swap R C G). apply zsum_rows.
Qed.

(** ** Slices *)

Lemma slice_rows_data {A} (m : matrix A) s en :
  shape_ok m ->
  let e := match en with Some (S k) => S k | _ => nRows m end in
  s <= e <= nRows m ->
  slice m s en = mkMatrix (e - s) (nCols m) (take ((e - s) * nCols m) (drop (s * nCols m) (data m))).
Proof.
  intros Hok e He. unfold shape_ok in Hok. unfold slice, ta_slice, truthy.
  destruct en as [[|k]|]; simpl in e; unfold e in *; destruct s as [|s]; cbn -[Nat.mul];
    rewrite ?Hok; try rewrite Nat.min_l by nia;
    repeat f_equal; rewrite ?Nat.mul_sub_distr_r; nia.
Qed.

(** ** Means of an empty dimension *)

Lemma nan_of_zero_div : (PrimFloat.div 0 (float_of_Z 0) = nan)%float.
Proof. vm_compute. reflexivity. Qed.

Lemma div_zero_entry (dt : dtype) :
  (let! q := js_div (k_read (kind_of dt) (k_zero (kind_of dt))) (num_of_Z 0) in
   k_write (kind_of dt) q)
  = if is_wide dt then Err ETypeError else k_write (kind_of dt) (JNum nan).
Proof.
  pose proof nan_of_zero_div as E.
  destruct dt; cbn [js_div k_read k_zero kind_of int_kind float_kind num_of_Z is_wide];
    try reflexivity; cbn; rewrite ?E; reflexivity.
Qed.

Lemma mean_empty_loop (dt : dtype) n :
  0 < n ->
  res_map (fun a => let! q := js_div (k_read (kind_of dt) a) (num_of_Z 0) in k_write (kind_of dt) q)
    (replicate n (k_zero (kind_of dt)))
  = if is_wide dt then Err ETypeError
    else let! u := k_write (kind_of dt) (JNum nan) in Ok (replicate n u).
Proof.
  intros Hn. destruct n as [|n]; [lia|]. clear Hn.
  pose proof (div_zero_entry dt) as E.
  destruct (is_wide dt) eqn:W.
  - simpl. rewrite E. reflexivity.
  - destruct (k_write (kind_of dt) (JNum nan)) as [u|e] eqn:U; cbn [res_bind].
    + rewrite (res_map_ok _ (fun _ => u)).
      * f_equal. generalize (S n). intros k. induction k as [|k IH]; simpl; congruence.
      * intros x Hx. apply list_elem_of_In, elem_of_replicate in Hx as [-> _]. exact E.
    + cbn [replicate res_map]. rewrite E. reflexivity.
Qed.

(** ** Construction from nested arrays *)

Lemma res_map_err {A B} (f : A -> res B) l e :
  res_map f l = Err e -> exists x, In x l /\ f x = Err e.
Proof.
  induction l as [|x l IH]; simpl; [discriminate|].
  destruct (f x) as [y|e'] eqn:E; simpl.
  - destruct (res_map f l) as [ys|e''] eqn:E'; simpl; [discriminate|].
    intros H. injection H as <-. destruct (IH eq_refl) as (z & Hz & Hfz).
    exists z. split; [right; exact Hz|exact Hfz].
  - intros H. injection H as <-. exists x. split; [left; reflexivity|exact E].
Qed.

Lemma res_map_some_err {A B} (f : A -> res B) l x e :
  In x l -> f x = Err e -> exists e', res_map f l = Err e'.
Proof.
  induction l as [|y l IH]; simpl; [tauto|]. intros [->|Hx] Hf.
  - rewrite Hf. simpl. eauto.
  - destruct (f y) as [z|e']; simpl; [|eauto].
    destruct (IH Hx Hf) as [e' ->]. simpl. eauto.
Qed.

Lemma kind_write_err (dt : dtype) v :
  (exists e, k_write (kind_of dt) v = Err e) <-> is_bigint v <> is_wide dt.
Proof.
  destruct dt, v; cbn; split; intros H;
    try (destruct H as [e He]; discriminate); try (exfalso; apply H; reflexivity);
    try (eexists; reflexivity); try discriminate.
Qed.

Lemma kind_write_err_type (dt : dtype) v e :
  k_write (kind_of dt) v = Err e -> e = ETypeError.
Proof. destruct dt, v; cbn; intros H; congruence. Qed.

Lemma concat_lookup_uniform {B} (rs : list (list B)) C i j :
  Forall (fun r => length r = C) rs -> i < length rs -> j < C ->
  concat rs !! (i * C + j) = nth i rs [] !! j.
Proof.
  intros Hrs. revert i. induction Hrs as [|r rs Hr _ IH]; intros i Hi Hj; simpl in Hi; [lia|].
  destruct i as [|i]; simpl.
  - rewrite lookup_app_l by lia. reflexivity.
  - rewrite lookup_app_r by lia. rewrite Hr.
    replace (C + i * C + j - C) with (i * C + j) by lia. apply IH; lia.
Qed.

Lemma map_seq_lookup {B} (F : nat -> B) n j : j < n -> map F (seq 0 n) !! j = Some (F j).
Proof.
  intros Hj. destruct (nth_lookup_or_length (map F (seq 0 n)) j (F 0)) as [E|E].
  - rewrite E, nth_map_seq by exact Hj. reflexivity.
  - rewrite length_map, length_seq in E. lia.
Qed.

Lemma nan_write_read (dt : dtype) :
  is_wide dt = false ->
  exists u, k_write (kind_of dt) (JNum nan) = Ok u /\
            k_read (kind_of dt) u = if is_int dt then JInt 0 else JNum nan.
Proof. destruct dt; intros H; try discriminate; eexists; split; reflexivity. Qed.

Lemma rowMean_no_rows (dt : dtype) (m : matrix (elt dt)) :
  data m = [] -> nRows m = 0 -> 0 < nCols m ->
  rowMean (kind_of dt) m = if is_wide dt then Err ETypeError
    else let! u := k_write (kind_of dt) (JNum nan) in Ok (replicate (nCols m) u).
Proof.
  intros Hd Hr HC. unfold rowMean, rowSum. rewrite Hr.
  change (nested 0 (nCols m)) with (@nil (nat * nat)). cbn [res_fold res_bind].
  rewrite div_all_map. unfold count_divisor, ta_get. rewrite Hd.
  exact (mean_empty_loop dt (nCols m) HC).
Qed.

Lemma colMean_no_cols (dt : dtype) (m : matrix (elt dt)) :
  data m = [] -> nCols m = 0 -> 0 < nRows m ->
  colMean (kind_of dt) m = if is_wide dt then Err ETypeError
    else let! u := k_write (kind_of dt) (JNum nan) in Ok (replicate (nRows m) u).
Proof.
  intros Hd Hc HR. unfold colMean, colSum. rewrite Hc.
  change (nested 0 (nRows m)) with (@nil (nat * nat)). cbn [res_fold res_bind].
  rewrite div_all_map. unfold count_divisor, ta_get. rewrite Hd.
  exact (mean_empty_loop dt (nRows m) HR).
Qed.

(** ** Conversion errors in the row and column stores *)

Lemma put_all_err {A} (K : kind A) d src k e :
  res_map (k_write K) src = Err e -> put_all K d src k = Err e.
Proof.
  revert d k; induction src as [|v src IH]; intros d k H; [discriminate|].
  cbn [put_all]. unfold ta_put. cbn [res_map] in H.
  destruct (k_write K v) as [x|e'] eqn:E; cbn [res_bind] in H |- *; [|exact H].
  destruct (res_map (k_write K) src) eqn:E2; cbn [res_bind] in H; [discriminate|].
  injection H as <-. apply IH. reflexivity.
Qed.

Lemma fold_put_err {A} (K : kind A) (g : nat -> nat) (h : nat -> jsval) l d e :
  res_map (fun i => k_write K (h i)) l = Err e ->
  res_fold (fun d i => ta_put K d (g i) (h i)) l d = Err e.
Proof.
  revert d; induction l as [|i l IH]; intros d H; [discriminate|].
  cbn [res_fold]. unfold ta_put at 1. cbn [res_map] in H.
  destruct (k_write K (h i)) as [x|e'] eqn:E; cbn [res_bind] in H |- *; [|exact H].
  destruct (res_map _ l) eqn:E2; cbn [res_bind] in H; [discriminate|].
  injection H as <-. apply IH. reflexivity.
Qed.

(** * The claims *)

(** C1 (counterexample). The Wrap mode adopts a 5-element Uint8Array given
    with shape [2, 3]: the matrix it returns holds 5 elements, not
    nRows * nCols = 6. *)
Lemma wrap_adopts_inconsistent_buffer :
  exists m : matrix (elt u8),
    reachable (kind_of u8) m /\ length (data m) <> nRows m * nCols m.
Proof.
  exists (mkMatrix 2 3 [1; 2; 3; 4; 5]%Z). split; [|simpl; lia].
  apply (reach_new (kind_of u8) (InView [1; 2; 3; 4; 5]%Z)
           {| cfg_shape := Some (2, Some 3); cfg_dType := false |}).
  reflexivity.
Qed.

(** C1 (amended). A matrix constructed from consistent shape information
    (Wrap and MatrixLike: the buffer length equals rows * cols, or rows > 0
    divides it when cols is omitted; Allocate: always; Convert: all rows as
    long as the first) has buffer length nRows * nCols; every public mutation
    (setCell, setAdd, setCol, setRow) keeps nRows, nCols and the buffer
    length; item(r, c) reads flat offset r * nCols + c. *)
Theorem layout_invariant {A} (K : kind A) :
  (forall x cfg m, input_consistent x cfg -> new_Matrix K x cfg = Ok m -> shape_ok m) /\
  (forall m op m', shape_ok m -> mutate K m op = Ok m' ->
     shape_ok m' /\ nRows m' = nRows m /\ nCols m' = nCols m) /\
  (forall m r c, item K m r c = ta_get K (data m) (r * nCols m + c)).
Proof.
  split; [exact (new_Matrix_shape_ok K)|split].
  - intros m op m' Hok Hm.
    destruct (mutate_layout K m op m' Hm) as (Hr & Hc & Hl).
    unfold shape_ok in *. rewrite Hl, Hr, Hc. auto.
  - reflexivity.
Qed.

(** C10. [slice(s, 0)]: 0 is falsy, so an explicit end of 0 acts as an
    omitted end; the result is the copy of rows [s, nRows), with shape
    [nRows - s, nCols] (not the empty range [s, 0)). *)
Theorem slice_end_zero {A} (m : matrix A) (s : nat) :
  s <= nRows m -> shape_ok m ->
  slice m s (Some 0) = slice m s None /\
  slice m s (Some 0) = mkMatrix (nRows m - s) (nCols m) (drop (s * nCols m) (data m)) /\
  shape_ok (slice m s (Some 0)).
Proof.
  intros Hs Hok.
  assert (Hb : match truthy (Some s) with Some s' => s' * nCols m | None => 0 end
               = s * nCols m) by (destruct s; reflexivity).
  assert (Hd : ta_slice (data m) (s * nCols m) None = drop (s * nCols m) (data m)).
  { unfold ta_slice. apply take_ge. rewrite length_drop. lia. }
  unfold slice. rewrite Hb. cbn [truthy]. rewrite Hd.
  split; [reflexivity|split; [reflexivity|]].
  unfold shape_ok in *. cbn [nRows nCols data]. rewrite length_drop, Hok.
  rewrite Nat.mul_sub_distr_r. reflexivity.
Qed.

Lemma slice_end_zero_witness :
  let m := mkMatrix 2 3 [1; 0; 2; 0; 1; 1]%Z : matrix (elt u8) in
  slice m 1 (Some 0) = slice m 1 None /\
  slice m 1 (Some 0) = mkMatrix (nRows m - 1) (nCols m) (drop (1 * nCols m) (data m)) /\
  shape_ok (slice m 1 (Some 0)).
Proof. intros m. apply slice_end_zero; [simpl; lia | reflexivity]. Defined.

(** C2 (code bug). [dot] picks its zero by [typeof this.data[0]]: on an
    empty BigUint64 matrix (here [new Matrix("u64", {shape: [0, 3]})])
    [data[0]] is undefined, and the result is the Number 0, not the BigInt
    0n of the kind's domain. *)
Theorem dot_empty_wide_is_number :
  new_Matrix (kind_of u64) InTag {| cfg_shape := Some (0, Some 3); cfg_dType := false |}
    = Ok (mkMatrix 0 3 []) /\
  dot (kind_of u64) (mkMatrix 0 3 []) (mkMatrix 0 3 []) = Ok (JInt 0) /\
  is_bigint (JInt 0) = false.
Proof. repeat split. Qed.

(** C8. [transform] throws "IDF not initialized yet." while no idf vector is
    stored (as after [new TfIdfTransformer()]), leaving the transformer as it
    was; after a successful [fit] it returns [multiplyDiags(data, idf)] with
    the stored vector ([multiplyDiags] builds its result with the Matrix of
    utils/matrix.ts, modelled from the spec as [md_wrap] and [md_setCell]). *)
Theorem transform_requires_fit (t : TfIdfTransformer) (m : matrix float) :
  (idf t = None -> transform t m = (t, Err EIdfNotInitialized)) /\
  transform new_TfIdfTransformer m = (new_TfIdfTransformer, Err EIdfNotInitialized) /\
  (forall js_log A (K : kind A) (tf : matrix A) t',
     fit js_log K t tf = Ok t' ->
     exists y, idf t' = Some y /\ transform t' m = (t', Ok (multiplyDiags m y))).
Proof.
  split; [intros H; unfold transform; rewrite H; reflexivity|].
  split; [reflexivity|].
  intros js_log A K tf t' Hfit. unfold fit in Hfit.
  destruct (rowSum K tf) as [freq|]; simpl in Hfit; [|discriminate].
  injection Hfit as <-. eexists. split; reflexivity.
Qed.

(** C3 (counterexample). On a 2x2 Uint8 matrix of zeros, [setRow(0, [7])]
    and [setCol(0, [7, 8, 9])] succeed although the lengths differ from
    nCols and nRows; [setRow(0, [1, 2, 3])] runs into row 1. *)
Lemma setRow_setCol_accept_wrong_length :
  setRow (kind_of u8) (mkMatrix 2 2 [0; 0; 0; 0]%Z) 0 [JInt 7]
    = Ok (mkMatrix 2 2 [7; 0; 0; 0]%Z) /\
  setRow (kind_of u8) (mkMatrix 2 2 [0; 0; 0; 0]%Z) 0 [JInt 1; JInt 2; JInt 3]
    = Ok (mkMatrix 2 2 [1; 2; 3; 0]%Z) /\
  setCol (kind_of u8) (mkMatrix 2 2 [0; 0; 0; 0]%Z) 0 [JInt 7; JInt 8; JInt 9]
    = Ok (mkMatrix 2 2 [7; 0; 8; 0]%Z).
Proof. repeat split. Qed.

(** C3 (amended). Let [m] have a consistent layout, [r < nRows] and
    [c < nCols]. [setRow(r, values)] never compares [values.length] with
    nCols: it fails with RangeError when [r*nCols + values.length] exceeds
    the buffer, and otherwise stores the converted values from flat offset
    [r*nCols] on; with [values.length = nCols] it overwrites exactly row
    [r]. [setCol(c, values)] never checks [values.length] either: it stores
    the converted [values[i]] (undefined past the end, extra entries
    ignored) at [(i, c)] for every [i < nRows], overwriting exactly column
    [c]; with [values.length = nRows] those are the converted values.
    Conversion errors propagate: [setRow] (when the values fit) and [setCol]
    throw the error of the first value whose conversion throws. *)
Theorem setRow_setCol_unchecked {A} (K : kind A) (m : matrix A) (r c : nat)
    (v : list jsval) (xs : list A) :
  shape_ok m -> r < nRows m -> c < nCols m ->
  (nRows m * nCols m < r * nCols m + length v -> setRow K m r v = Err ERangeError) /\
  (res_map (k_write K) v = Ok xs -> r * nCols m + length v <= nRows m * nCols m ->
     setRow K m r v = Ok (with_data m
       (take (r * nCols m) (data m) ++ xs ++ drop (r * nCols m + length xs) (data m)))) /\
  (res_map (k_write K) v = Ok xs -> length v = nCols m ->
     exists m', setRow K m r v = Ok m' /\ shape_ok m' /\
       nRows m' = nRows m /\ nCols m' = nCols m /\
       forall i j, i < nRows m -> j < nCols m ->
         data m' !! (i * nCols m + j) =
           if Nat.eqb i r then xs !! j else data m !! (i * nCols m + j)) /\
  (res_map (fun i => k_write K (arr_get v i)) (seq 0 (nRows m)) = Ok xs ->
     exists m', setCol K m c v = Ok m' /\ shape_ok m' /\
       nRows m' = nRows m /\ nCols m' = nCols m /\
       forall i j, i < nRows m -> j < nCols m ->
         data m' !! (i * nCols m + j) =
           if Nat.eqb j c then xs !! i else data m !! (i * nCols m + j)) /\
  (length v = nRows m ->
     res_map (fun i => k_write K (arr_get v i)) (seq 0 (nRows m)) = res_map (k_write K) v) /\
  (forall e, res_map (k_write K) v = Err e -> r * nCols m + length v <= nRows m * nCols m ->
     setRow K m r v = Err e) /\
  (forall e, res_map (fun i => k_write K (arr_get v i)) (seq 0 (nRows m)) = Err e ->
     setCol K m c v = Err e).
Proof.
  intros Hok Hr Hc.
  assert (Hlen : length (data m) = nRows m * nCols m) by exact Hok.
  assert (Hrow : forall xs', res_map (k_write K) v = Ok xs' ->
            r * nCols m + length v <= nRows m * nCols m ->
            setRow K m r v = Ok (with_data m
              (take (r * nCols m) (data m) ++ xs' ++ drop (r * nCols m + length xs') (data m)))).
  { intros xs' Hm Hle. unfold setRow, ta_set_values.
    rewrite Hlen, (proj2 (Nat.ltb_ge _ _) Hle).
    rewrite (put_all_spec K _ _ _ _ Hm) by lia. reflexivity. }
  split; [|split; [exact (Hrow xs)|split; [|split; [|split; [|split]]]]].
  - intros Hgt. unfold setRow, ta_set_values.
    rewrite Hlen, (proj2 (Nat.ltb_lt _ _) Hgt). reflexivity.
  - intros Hm Hv.
    assert (Hx : length xs = nCols m)
      by (rewrite <- Hv; exact (res_map_length _ _ _ Hm)).
    eexists. split; [apply Hrow; [exact Hm | rewrite Hv; nia]|].
    unfold shape_ok; cbn [with_data nRows nCols data].
    split; [|split; [reflexivity|split; [reflexivity|]]].
    { rewrite !length_app, length_take, length_drop, Hx, Hlen. nia. }
    intros i j Hi Hj.
    assert (Ht : length (take (r * nCols m) (data m)) = r * nCols m)
      by (rewrite length_take; nia).
    destruct (Nat.lt_trichotomy i r) as [Hir|[->|Hir]].
    + rewrite (proj2 (Nat.eqb_neq i r)) by lia.
      assert (i * nCols m + j < r * nCols m) by (apply rowmajor_lt; lia).
      rewrite lookup_app_l by lia. rewrite lookup_take_lt by lia. reflexivity.
    + rewrite Nat.eqb_refl. rewrite lookup_app_r by lia. rewrite Ht.
      rewrite lookup_app_l by lia. f_equal. lia.
    + rewrite (proj2 (Nat.eqb_neq i r)) by lia.
      assert (r * nCols m + nCols m <= i * nCols m) by nia.
      rewrite lookup_app_r by lia. rewrite Ht.
      rewrite lookup_app_r by lia. rewrite Hx, lookup_drop. f_equal. lia.
  - intros Hm.
    unfold setCol.
    destruct (res_fold _ (seq 0 (nRows m)) (data m)) as [d|] eqn:Ed.
    2:{ exfalso.
        assert (forall n, n <= nRows m -> exists d, res_fold
                  (fun d i => ta_put K d (i * nCols m + c) (arr_get v i))
                  (seq 0 n) (data m) = Ok d) as Hall.
        { induction n as [|n IH]; intros Hn; [eexists; reflexivity|].
          destruct (IH ltac:(lia)) as [d0 E0].
          assert (Hsn : seq 0 (nRows m) !! n = Some n) by (apply lookup_seq; lia).
          destruct (res_map_lookup _ _ _ _ _ Hm Hsn) as (y & Hy & _).
          rewrite seq_S, res_fold_app, E0. simpl. unfold ta_put. rewrite Hy.
          eexists; reflexivity. }
        destruct (Hall (nRows m) (le_n _)) as [d' E']. congruence. }
    destruct (setCol_loop K m c v xs (nRows m) d Hok Hc (le_n _) Hm Ed) as [Hl Hd].
    eexists. split; [reflexivity|].
    unfold shape_ok; cbn [with_data nRows nCols data].
    split; [rewrite Hl; exact Hlen|split; [reflexivity|split; [reflexivity|]]].
    intros i j Hi Hj. rewrite Hd by assumption.
    rewrite (proj2 (Nat.ltb_lt i (nRows m)) Hi), andb_true_r. reflexivity.
  - intros Hv. rewrite <- Hv. clear.
    assert (forall k, res_map (fun i => k_write K (arr_get v i)) (seq k (length v - k))
                      = res_map (k_write K) (drop k v)) as Hgen.
    { intros k. remember (length v - k) as n eqn:En. revert k En.
      induction n as [|n IH]; intros k En.
      - rewrite drop_ge by lia. reflexivity.
      - assert (Hk : k < length v) by lia.
        destruct (lookup_lt_is_Some_2 v k Hk) as [x Hx].
        rewrite (drop_S v x k Hx). simpl. unfold arr_get at 1. rewrite Hx.
        rewrite (IH (S k)) by lia. reflexivity. }
    rewrite <- (drop_0 v) at 2. rewrite <- Hgen, Nat.sub_0_r. reflexivity.
  - intros e He Hle. unfold setRow, ta_set_values.
    rewrite Hlen, (proj2 (Nat.ltb_ge _ _) Hle), (put_all_err K _ _ _ _ He). reflexivity.
  - intros e He. unfold setCol. rewrite (fold_put_err K _ _ _ _ _ He). reflexivity.
Qed.

Lemma setRow_setCol_unchecked_witness :
  let m := mkMatrix 2 2 [0; 0; 0; 0]%Z : matrix (elt u8) in
  (nRows m * nCols m < 0 * nCols m + length [JInt 7; JInt 8] ->
     setRow (kind_of u8) m 0 [JInt 7; JInt 8] = Err ERangeError) /\
  (res_map (k_write (kind_of u8)) [JInt 7; JInt 8] = Ok [7; 8]%Z ->
     0 * nCols m + length [JInt 7; JInt 8] <= nRows m * nCols m ->
     setRow (kind_of u8) m 0 [JInt 7; JInt 8] = Ok (with_data m
       (take (0 * nCols m) (data m) ++ [7; 8]%Z ++ drop (0 * nCols m + length [7; 8]%Z) (data m)))) /\
  (res_map (k_write (kind_of u8)) [JInt 7; JInt 8] = Ok [7; 8]%Z -> length [JInt 7; JInt 8] = nCols m ->
     exists m', setRow (kind_of u8) m 0 [JInt 7; JInt 8] = Ok m' /\ shape_ok m' /\
       nRows m' = nRows m /\ nCols m' = nCols m /\
       forall i j, i < nRows m -> j < nCols m ->
         data m' !! (i * nCols m + j) =
           if Nat.eqb i 0 then [7; 8]%Z !! j else data m !! (i * nCols m + j)) /\
  (res_map (fun i => k_write (kind_of u8) (arr_get [JInt 7; JInt 8] i)) (seq 0 (nRows m)) = Ok [7; 8]%Z ->
     exists m', setCol (kind_of u8) m 1 [JInt 7; JInt 8] = Ok m' /\ shape_ok m' /\
       nRows m' = nRows m /\ nCols m' = nCols m /\
       forall i j, i < nRows m -> j < nCols m ->
         data m' !! (i * nCols m + j) =
           if Nat.eqb j 1 then [7; 8]%Z !! i else data m !! (i * nCols m + j)) /\
  (length [JInt 7; JInt 8] = nRows m ->
     res_map (fun i => k_write (kind_of u8) (arr_get [JInt 7; JInt 8] i)) (seq 0 (nRows m))
       = res_map (k_write (kind_of u8)) [JInt 7; JInt 8]) /\
  (forall e, res_map (k_write (kind_of u8)) [JInt 7; JInt 8] = Err e ->
     0 * nCols m + length [JInt 7; JInt 8] <= nRows m * nCols m ->
     setRow (kind_of u8) m 0 [JInt 7; JInt 8] = Err e) /\
  (forall e, res_map (fun i => k_write (kind_of u8) (arr_get [JInt 7; JInt 8] i)) (seq 0 (nRows m)) = Err e ->
     setCol (kind_of u8) m 1 [JInt 7; JInt 8] = Err e).
Proof.
  intros m. apply (setRow_setCol_unchecked (kind_of u8) m 0 1 [JInt 7; JInt 8] [7; 8]%Z);
    [reflexivity | simpl; lia | simpl; lia].
Defined.

(** C4. For every element kind and every well-formed matrix [m] (buffer of
    length nRows*nCols holding values of the kind), [m.T] succeeds with an
    nCols x nRows matrix whose entry (r, c) is m's entry (c, r), and
    transposing that again gives back [m] itself: same shape, same buffer. *)
Theorem transpose_involutive (dt : dtype) (m : matrix (elt dt)) :
  wf (kind_of dt) m ->
  exists m1, T (kind_of dt) m = Ok m1 /\
    nRows m1 = nCols m /\ nCols m1 = nRows m /\
    (forall r c, r < nCols m -> c < nRows m ->
       item (kind_of dt) m1 r c = item (kind_of dt) m c r) /\
    T (kind_of dt) m1 = Ok m.
Proof.
  intros Hwf.
  pose proof (kind_roundtrip dt) as Hrt. pose proof (kind_zero_valid dt) as Hz.
  set (K := kind_of dt) in *.
  exists (mkMatrix (nCols m) (nRows m) (tr_data K (nRows m) (nCols m) (data m))).
  split; [exact (T_spec K Hrt m Hwf)|].
  split; [reflexivity|split; [reflexivity|split]].
  - intros r c Hr Hc. destruct Hwf as [Hok _]. unfold item, ta_get. cbn [data nCols].
    destruct (lookup_lt_is_Some_2 (tr_data K (nRows m) (nCols m) (data m)) (r * nRows m + c))
      as [x Hx].
    { rewrite tr_data_length. apply rowmajor_lt; lia. }
    destruct (lookup_lt_is_Some_2 (data m) (c * nCols m + r)) as [y Hy].
    { rewrite Hok. apply rowmajor_lt; lia. }
    rewrite Hx, Hy. f_equal.
    rewrite <- (nth_lookup_Some _ _ (k_zero K) _ Hx), <- (nth_lookup_Some _ _ (k_zero K) _ Hy).
    apply tr_data_nth; assumption.
  - rewrite (T_spec K Hrt _ (T_wf K Hz m Hwf)). cbn [nRows nCols data].
    destruct Hwf as [Hok _].
    rewrite tr_data_involutive by exact Hok. destruct m; reflexivity.
Qed.

Lemma transpose_involutive_witness :
  let m := mkMatrix 2 3 [1; 0; 2; 0; 1; 1]%Z : matrix (elt u8) in
  wf (kind_of u8) m /\
  exists m1, T (kind_of u8) m = Ok m1 /\
    nRows m1 = nCols m /\ nCols m1 = nRows m /\
    (forall r c, r < nCols m -> c < nRows m ->
       item (kind_of u8) m1 r c = item (kind_of u8) m c r) /\
    T (kind_of u8) m1 = Ok m.
Proof.
  intros m.
  assert (H : wf (kind_of u8) m)
    by (split; [reflexivity | repeat constructor]).
  split; [exact H | exact (transpose_involutive u8 m H)].
Defined.

(** C5 (counterexample). In the Uint8 matrix [[200], [200]] the element sum
    is 400, colSum is [200, 200], but rowSum stores 400 in a Uint8Array and
    returns [144]: the entry sums differ. *)
Lemma rowSum_colSum_overflow :
  let m := mkMatrix 2 1 [200; 200]%Z : matrix (elt u8) in
  wf (kind_of u8) m /\
  rowSum (kind_of u8) m = Ok [144%Z] /\
  colSum (kind_of u8) m = Ok [200; 200]%Z /\
  zsum (data m) = 400%Z /\
  zsum [144%Z] <> zsum [200; 200]%Z.
Proof.
  intros m. split; [split; [reflexivity | repeat constructor]|].
  split; [reflexivity|]. split; [reflexivity|]. split; [reflexivity|].
  unfold zsum. simpl. lia.
Qed.

(** C5 (amended). For every element kind and every well-formed matrix,
    rowSum returns a vector of length nCols and colSum one of length nRows,
    without error; when the matrix has no rows or no columns both vectors
    are all zero. For an integer kind of width [w] (the eight integer kinds
    of the registry are [int_kind] with [w] = 8, 16, 32 or, for the two
    BigInt kinds, 64), entry [j] of rowSum is the exact total of column [j]
    and entry [i] of colSum the exact total of row [i], each reduced into
    the kind's range modulo 2^w; so the entry sums of rowSum and of colSum
    equal the sum of all elements modulo 2^w, and equal it exactly when
    every column total (for rowSum), resp. every row total (for colSum), is
    representable in the kind. For f32/f64 (of any well-shaped matrix),
    entry [j] of rowSum is the IEEE running sum of column [j] in row order,
    entry [i] of colSum that of row [i] in column order, each addition
    rounded to double precision and, for f32, then to single precision. *)
Theorem rowSum_colSum_totals :
  (forall dt (m : matrix (elt dt)), wf (kind_of dt) m ->
     exists rs cs, rowSum (kind_of dt) m = Ok rs /\ length rs = nCols m /\
                   colSum (kind_of dt) m = Ok cs /\ length cs = nRows m) /\
  (forall dt (m : matrix (elt dt)), nRows m = 0 \/ nCols m = 0 ->
     rowSum (kind_of dt) m = Ok (replicate (nCols m) (k_zero (kind_of dt))) /\
     colSum (kind_of dt) m = Ok (replicate (nRows m) (k_zero (kind_of dt)))) /\
  (forall big signed w (m : matrix Z), (0 < w)%Z -> big = true \/ (w <= 52)%Z ->
     wf (int_kind big signed w) m ->
     let colTot j := zsum (map (fun i => nth (i * nCols m + j) (data m) 0%Z) (seq 0 (nRows m))) in
     let rowTot i := zsum (map (fun j => nth (i * nCols m + j) (data m) 0%Z) (seq 0 (nCols m))) in
     let rs := map (fun j => wrap signed w (colTot j)) (seq 0 (nCols m)) in
     let cs := map (fun i => wrap signed w (rowTot i)) (seq 0 (nRows m)) in
     rowSum (int_kind big signed w) m = Ok rs /\
     colSum (int_kind big signed w) m = Ok cs /\
     wrap signed w (zsum rs) = wrap signed w (zsum (data m)) /\
     wrap signed w (zsum cs) = wrap signed w (zsum (data m)) /\
     ((forall j, j < nCols m -> wrap signed w (colTot j) = colTot j) ->
        zsum rs = zsum (data m)) /\
     ((forall i, i < nRows m -> wrap signed w (rowTot i) = rowTot i) ->
        zsum cs = zsum (data m))) /\
  (forall (single : bool) (m : matrix float), shape_ok m ->
     let fadd (a b : float) := if single then fround (a + b)%float else (a + b)%float in
     rowSum (float_kind single) m =
       Ok (map (fun j => fold_left (fun acc i => fadd acc (nth (i * nCols m + j) (data m) 0%float))
                  (seq 0 (nRows m)) 0%float) (seq 0 (nCols m))) /\
     colSum (float_kind single) m =
       Ok (map (fun i => fold_left (fun acc j => fadd acc (nth (i * nCols m + j) (data m) 0%float))
                  (seq 0 (nCols m)) 0%float) (seq 0 (nRows m)))).
Proof.
  split; [exact sums_ok_kind|]. split; [|split].
  - intros dt m [H|H]; unfold rowSum, colSum, ta_alloc; rewrite H;
      rewrite ?nested_zero_r; split; reflexivity.
  - intros big signed w m Hw Hbig [Hok Hv] colTot rowTot rs cs.
    set (F := fun i j => nth (i * nCols m + j) (data m) 0%Z).
    assert (HP : Forall (fun a => wrap signed w a = a) (data m))
      by (refine (Forall_impl _ _ _ Hv _); intros a Ha; apply Z.eqb_eq; exact Ha).
    assert (Hz : wrap signed w 0 = 0%Z) by (apply wrap_zero; exact Hw).
    assert (Hadd : forall a b, wrap signed w a = a -> wrap signed w b = b ->
              (let! s := js_add (k_read (int_kind big signed w) a)
                                (k_read (int_kind big signed w) b) in
               k_write (int_kind big signed w) s) = Ok (wrap signed w (a + b)) /\
              wrap signed w (wrap signed w (a + b)) = wrap signed w (a + b))
      by (intros a b Ha Hb; apply int_add_spec; assumption).
    assert (Hrows : zsum (map rowTot (seq 0 (nRows m))) = zsum (data m)).
    { pose proof (zsum_rows (nRows m) (nCols m) F) as H. unfold F in H. cbn beta in H.
      unfold rowTot. rewrite H. rewrite nested_reconstruct by exact Hok. reflexivity. }
    assert (Hcols : zsum (map colTot (seq 0 (nCols m))) = zsum (data m)).
    { pose proof (zsum_swap (nRows m) (nCols m) F) as H. unfold F in H. cbn beta in H.
      unfold colTot. rewrite H. exact Hrows. }
    split; [|split; [|split; [|split; [|split]]]].
    + rewrite (rowSum_spec (int_kind big signed w) (fun a => wrap signed w a = a)
                 (fun a b => wrap signed w (a + b)) Hz Hadd m Hok HP). f_equal.
      apply map_ext. intros j. rewrite fold_wrap_add by exact Hz. reflexivity.
    + rewrite (colSum_spec (int_kind big signed w) (fun a => wrap signed w a = a)
                 (fun a b => wrap signed w (a + b)) Hz Hadd m Hok HP). f_equal.
      apply map_ext. intros i. rewrite fold_wrap_add by exact Hz. reflexivity.
    + unfold rs. rewrite wrap_zsum_map, Hcols. reflexivity.
    + unfold cs. rewrite wrap_zsum_map, Hrows. reflexivity.
    + intros Hrep. unfold rs. rewrite <- Hcols. f_equal.
      apply map_ext_in. intros j Hj. apply in_seq in Hj. apply Hrep. lia.
    + intros Hrep. unfold cs. rewrite <- Hrows. f_equal.
      apply map_ext_in. intros i Hi. apply in_seq in Hi. apply Hrep. lia.
  - intros single m Hok fadd.
    assert (HP : Forall (fun _ : float => True) (data m))
      by (apply List.Forall_forall; intros; exact I).
    split.
    + exact (rowSum_spec (float_kind single) (fun _ => True) fadd I
               (fun a b _ _ => conj (float_add_spec single a b) I) m Hok HP).
    + exact (colSum_spec (float_kind single) (fun _ => True) fadd I
               (fun a b _ _ => conj (float_add_spec single a b) I) m Hok HP).
Qed.

Lemma rowSum_colSum_totals_witness :
  let m := mkMatrix 2 3 [1; 0; 2; 0; 1; 1]%Z : matrix (elt u8) in
  wf (kind_of u8) m /\
  (exists rs cs, rowSum (kind_of u8) m = Ok rs /\ length rs = nCols m /\
                 colSum (kind_of u8) m = Ok cs /\ length cs = nRows m) /\
  (rowSum (kind_of u8) (mkMatrix 0 3 []) = Ok (replicate 3 (k_zero (kind_of u8))) /\
   colSum (kind_of u8) (mkMatrix 0 3 []) = Ok (replicate 0 (k_zero (kind_of u8)))) /\
  rowSum (int_kind false false 8) m = Ok [1; 1; 3]%Z /\
  rowSum (float_kind false) (mkMatrix 2 1 [0.5; 0.25]%float) = Ok [0.75]%float.
Proof.
  intros m.
  assert (H : wf (kind_of u8) m) by (split; [reflexivity | repeat constructor]).
  split; [exact H|]. split; [exact (proj1 rowSum_colSum_totals u8 m H)|].
  split; [exact (proj1 (proj2 rowSum_colSum_totals) u8 (mkMatrix 0 3 []) (or_introl eq_refl))|].
  assert (Hw : (0 < 8)%Z) by lia. assert (Hw' : (8 <= 52)%Z) by lia.
  destruct (proj1 (proj2 (proj2 rowSum_colSum_totals)) false false 8%Z m Hw (or_intror Hw') H)
    as [Hr _].
  split; [rewrite Hr; reflexivity|].
  assert (Hf : shape_ok (mkMatrix 2 1 [0.5; 0.25]%float)) by reflexivity.
  rewrite (proj1 (proj2 (proj2 (proj2 rowSum_colSum_totals)) false _ Hf)). reflexivity.
Defined.

(** C6. For a matrix with at least one row and one column (buffer of length
    nRows*nCols), rowMean() is rowSum() with every entry [s] replaced by
    the stored value of [s / n] for [n] = nRows, and colMean() the same on
    colSum() with [n] = nCols. The divisor [n] is the BigInt [BigInt(n)] for
    the wide kinds u64/i64 and the Number [n] for the others. *)
Theorem means_divide_sums (dt : dtype) (m : matrix (elt dt)) :
  shape_ok m -> 0 < nRows m -> 0 < nCols m ->
  let divisor n := if is_wide dt then JBig (Z.of_nat n) else num_of_Z (Z.of_nat n) in
  let per_entry n s :=
    let! q := js_div (k_read (kind_of dt) s) (divisor n) in k_write (kind_of dt) q in
  rowMean (kind_of dt) m =
    (let! sum := rowSum (kind_of dt) m in res_map (per_entry (nRows m)) sum) /\
  colMean (kind_of dt) m =
    (let! sum := colSum (kind_of dt) m in res_map (per_entry (nCols m)) sum).
Proof.
  intros Hok Hr Hc divisor per_entry.
  assert (Hd : data m <> []).
  { intros E. unfold shape_ok in Hok. rewrite E in Hok. simpl in Hok. nia. }
  unfold rowMean, colMean.
  rewrite !count_divisor_kind by exact Hd.
  split.
  - destruct (rowSum (kind_of dt) m) as [sum|e]; cbn [res_bind]; [|reflexivity].
    apply div_all_map.
  - destruct (colSum (kind_of dt) m) as [sum|e]; cbn [res_bind]; [|reflexivity].
    apply div_all_map.
Qed.

Lemma means_divide_sums_witness :
  let m := mkMatrix 2 2 [3; 4; 5; 7]%Z : matrix (elt u64) in
  shape_ok m /\ 0 < nRows m /\ 0 < nCols m /\
  rowMean (kind_of u64) m = Ok [4; 5]%Z /\
  rowMean (kind_of u64) m =
    (let! sum := rowSum (kind_of u64) m in
     res_map (fun s => let! q := js_div (k_read (kind_of u64) s) (JBig 2) in
                       k_write (kind_of u64) q) sum).
Proof.
  intros m.
  assert (Hok : shape_ok m) by reflexivity.
  assert (Hr : 0 < nRows m) by (simpl; lia). assert (Hc : 0 < nCols m) by (simpl; lia).
  split; [exact Hok|]. split; [exact Hr|]. split; [exact Hc|]. split; [reflexivity|].
  exact (proj1 (means_divide_sums u64 m Hok Hr Hc)).
Defined.

(** C7. Let [js_log] be the host's [Math.log]. For every element kind and
    every well-formed matrix, [fit] computes [freq = rowSum()] (a vector of
    nCols per-feature totals, see C5), stores the idf vector with entry
    [j] equal to [Math.log(nRows / Number(freq[j])) + 1], and returns the
    transformer holding it. On a Float64 matrix [freq[j]] is the running
    IEEE sum of column [j] over the rows. For the matrix [[1,0,2],[0,1,1]]
    (built from nested arrays) [freq = [1,1,3]] and the idf vector is
    [[log(2/1)+1, log(2/1)+1, log(2/3)+1]]. *)
Theorem fit_computes_idf (js_log : float -> float) :
  (forall dt (m : matrix (elt dt)) t, wf (kind_of dt) m ->
     exists freq, rowSum (kind_of dt) m = Ok freq /\ length freq = nCols m /\
       fit js_log (kind_of dt) t m =
         Ok {| idf := Some (map (fun f => idf_entry js_log (nRows m) (k_read (kind_of dt) f)) freq) |}) /\
  (forall (m : matrix float) t, shape_ok m ->
     fit js_log f64K t m =
       Ok {| idf := Some (map (fun j =>
         (js_log (float_of_Z (Z.of_nat (nRows m)) /
            fold_left (fun acc i => acc + nth (i * nCols m + j) (data m) 0)
              (seq 0 (nRows m)) 0) + 1)%float) (seq 0 (nCols m))) |}) /\
  (forall t, exists m,
     new_Matrix f64K (InArray [[JInt 1; JInt 0; JInt 2]; [JInt 0; JInt 1; JInt 1]])
       {| cfg_shape := None; cfg_dType := true |} = Ok m /\
     nRows m = 2 /\ nCols m = 3 /\
     rowSum f64K m = Ok [1; 1; 3]%float /\
     fit js_log f64K t m =
       Ok {| idf := Some [(js_log (2 / 1) + 1)%float; (js_log (2 / 1) + 1)%float;
                          (js_log (2 / 3) + 1)%float] |}).
Proof.
  split; [|split].
  - intros dt m t Hwf. destruct (sums_ok_kind dt m Hwf) as (rs & cs & Hrs & Hl & _).
    exists rs. split; [exact Hrs|]. split; [exact Hl|].
    unfold fit. rewrite Hrs. reflexivity.
  - intros m t Hok. unfold fit.
    assert (HP : Forall (fun _ : float => True) (data m))
      by (apply List.Forall_forall; intros; exact I).
    rewrite (rowSum_spec f64K (fun _ => True) (fun a b => (a + b)%float) I
               (fun a b _ _ => conj (float_add_spec false a b) I) m Hok HP).
    cbn [res_bind]. rewrite map_map. reflexivity.
  - intros t. eexists. split; [reflexivity|].
    split; [reflexivity|]. split; [reflexivity|]. split; [reflexivity|].
    reflexivity.
Qed.

Lemma fit_computes_idf_witness :
  let m := mkMatrix 2 3 [1; 0; 2; 0; 1; 1]%float in
  shape_ok m /\
  fit (fun x => x) f64K new_TfIdfTransformer m =
    Ok {| idf := Some (map (fun j =>
      ((float_of_Z (Z.of_nat (nRows m)) /
          fold_left (fun acc i => acc + nth (i * nCols m + j) (data m) 0)
            (seq 0 (nRows m)) 0) + 1)%float) (seq 0 (nCols m))) |}.
Proof.
  intros m. assert (H : shape_ok m) by reflexivity.
  split; [exact H|].
  exact (proj1 (proj2 (fit_computes_idf (fun x => x))) m new_TfIdfTransformer H).
Defined.

(** C9. [multiplyDiags] takes a Float64 matrix (the only element kind its
    signature admits) and a Float64 vector [y]. For [x] of shape m x n it
    returns an m x n matrix whose cell (i, j) is [x[i][j] * y[j]] when
    [j < y.length] and the buffer's initial 0 otherwise. Entries of [y] past
    [n] do not affect the result (their writes spill into later rows and
    are overwritten, or fall off the end of the buffer). With [y] of length
    [n] and all ones the result equals [x]. The Matrix of utils/matrix.ts
    that [multiplyDiags] uses is modelled from the spec ([md_wrap],
    [md_item], [md_setCell]). *)
Theorem multiplyDiags_scales_columns (x : matrix float) (y : list float) :
  shape_ok x ->
  nRows (multiplyDiags x y) = nRows x /\ nCols (multiplyDiags x y) = nCols x /\
  shape_ok (multiplyDiags x y) /\
  (forall i j, i < nRows x -> j < nCols x ->
     data (multiplyDiags x y) !! (i * nCols x + j) =
       Some (match y !! j with
             | Some b => (nth (i * nCols x + j) (data x) 0 * b)%float
             | None => 0%float
             end)) /\
  (nCols x <= length y -> multiplyDiags x y = multiplyDiags x (take (nCols x) y)) /\
  (length y = nCols x -> Forall (fun b => b = 1%float) y -> multiplyDiags x y = x).
Proof.
  intros Hok.
  destruct (multiplyDiags_cells x y Hok) as [Hok' Hc].
  split; [apply multiplyDiags_nRows|]. split; [apply multiplyDiags_nCols|]. split; [exact Hok'|].
  split; [exact Hc|]. split.
  - intros Hle. destruct (multiplyDiags_cells x (take (nCols x) y) Hok) as [Hok2 Hc2].
    apply matrix_ext; rewrite ?multiplyDiags_nRows, ?multiplyDiags_nCols; try reflexivity;
      try assumption.
    intros i j Hi Hj.
    rewrite (Hc i j Hi Hj), (Hc2 i j Hi Hj), lookup_take_lt by exact Hj. reflexivity.
  - intros Hlen Hones.
    apply matrix_ext; rewrite ?multiplyDiags_nRows, ?multiplyDiags_nCols; try reflexivity;
      try assumption.
    intros i j Hi Hj.
    rewrite (Hc i j Hi Hj).
    destruct (lookup_lt_is_Some_2 y j ltac:(lia)) as [b Hb].
    rewrite Hb, (Forall_lookup_1 _ _ _ _ Hones Hb), float_mul_1_r.
    destruct (nth_lookup_or_length (data x) (i * nCols x + j) 0%float) as [E|E];
      [symmetry; exact E|].
    unfold shape_ok in Hok. pose proof (rowmajor_lt _ _ _ _ Hi Hj). lia.
Qed.

Lemma multiplyDiags_scales_columns_witness :
  let x := mkMatrix 2 2 [1; 2; 3; 4]%float in
  shape_ok x /\
  multiplyDiags x [2; 1; 5]%float = mkMatrix 2 2 [2; 2; 6; 4]%float /\
  (length [1; 1]%float = nCols x -> Forall (fun b => b = 1%float) [1; 1]%float ->
   multiplyDiags x [1; 1]%float = x).
Proof.
  intros x. assert (H : shape_ok x) by reflexivity.
  split; [exact H|]. split; [reflexivity|].
  exact (proj2 (proj2 (proj2 (proj2 (proj2 (multiplyDiags_scales_columns x [1; 1]%float H)))))).
Defined.

(** * Further properties of the code *)

(** X1. [filter(fn)] on a well-shaped matrix keeps exactly the rows [i] for
    which [fn(row(i), i)] holds, in increasing order of [i], in a new
    well-shaped matrix with the same number of columns; when [fn] holds for
    every row the result equals the original matrix. *)
Theorem filter_keeps_rows {A} (K : kind A) (m : matrix A) (fn : list A -> nat -> bool) :
  shape_ok m ->
  let kept := List.filter (fun i => fn (row m i) i) (seq 0 (nRows m)) in
  filter K m fn = Ok (mkMatrix (length kept) (nCols m) (concat (map (row m) kept))) /\
  shape_ok (mkMatrix (length kept) (nCols m) (concat (map (row m) kept))) /\
  ((forall i, i < nRows m -> fn (row m i) i = true) -> filter K m fn = Ok m).
Proof.
  intros Hok kept.
  pose proof (filter_spec K m fn Hok) as Hf. cbv zeta in Hf. fold kept in Hf.
  split; [exact Hf|]. split.
  - unfold shape_ok. simpl. rewrite (length_concat_const _ (nCols m)).
    + rewrite length_map. reflexivity.
    + apply List.Forall_forall. intros r Hr. apply in_map_iff in Hr as (i & <- & Hi).
      unfold kept in Hi. apply filter_In in Hi as [Hi _]. apply in_seq in Hi.
      apply row_length; [exact Hok | lia].
  - intros Hall. rewrite Hf.
    assert (Hk : kept = seq 0 (nRows m)).
    { apply filter_true_id. intros i Hi. apply in_seq in Hi. apply Hall. lia. }
    rewrite Hk, length_seq, concat_row_prefix by (assumption || lia).
    unfold shape_ok in Hok. rewrite take_ge by lia. destruct m; reflexivity.
Qed.

Lemma filter_keeps_rows_witness :
  let m := mkMatrix 3 2 [1; 2; 3; 4; 5; 6]%Z : matrix (elt u8) in
  let fn := fun (_ : list Z) (i : nat) => Nat.even i in
  shape_ok m /\
  let kept := List.filter (fun i => fn (row m i) i) (seq 0 (nRows m)) in
  filter (kind_of u8) m fn = Ok (mkMatrix (length kept) (nCols m) (concat (map (row m) kept))) /\
  shape_ok (mkMatrix (length kept) (nCols m) (concat (map (row m) kept))) /\
  ((forall i, i < nRows m -> fn (row m i) i = true) -> filter (kind_of u8) m fn = Ok m).
Proof.
  intros m fn. split; [reflexivity|].
  exact (filter_keeps_rows (kind_of u8) m fn eq_refl).
Defined.

(** X2. The [rows()] generator of a well-shaped matrix yields [nRows] rows of
    [nCols] elements each, the [i]-th being [row(i)], and concatenating them
    gives back the matrix's buffer. *)
Theorem rows_concat_data {A} (m : matrix A) :
  shape_ok m ->
  length (rows m) = nRows m /\
  Forall (fun r => length r = nCols m) (rows m) /\
  concat (rows m) = data m /\
  (forall i, i < nRows m -> nth i (rows m) [] = row m i).
Proof.
  intros Hok. change (rows m) with (map (row m) (seq 0 (nRows m))).
  split; [rewrite length_map, length_seq; reflexivity|]. split; [|split].
  - apply List.Forall_forall. intros r Hr. apply in_map_iff in Hr as (i & <- & Hi).
    apply in_seq in Hi. apply row_length; [exact Hok | lia].
  - rewrite concat_row_prefix by (assumption || lia).
    unfold shape_ok in Hok. apply take_ge. lia.
  - intros i Hi. apply nth_map_seq. exact Hi.
Qed.

Lemma rows_concat_data_witness :
  let m := mkMatrix 2 3 [1; 0; 2; 0; 1; 1]%Z : matrix (elt u8) in
  shape_ok m /\
  length (rows m) = nRows m /\
  Forall (fun r => length r = nCols m) (rows m) /\
  concat (rows m) = data m /\
  (forall i, i < nRows m -> nth i (rows m) [] = row m i).
Proof. intros m. split; [reflexivity|]. exact (rows_concat_data m eq_refl). Defined.

(** X3. On a well-shaped matrix, [row(n)] for [n < nRows] has [nCols]
    elements and its [j]-th element reads as [item(n, j)]; for [n >= nRows]
    it is an empty array (no error is raised). *)
Theorem row_reads_items {A} (K : kind A) (m : matrix A) :
  shape_ok m ->
  (forall n, n < nRows m ->
     length (row m n) = nCols m /\
     forall j, j < nCols m -> ta_get K (row m n) j = item K m n j) /\
  (forall n, nRows m <= n -> row m n = []).
Proof.
  intros Hok. split.
  - intros n Hn. split; [apply row_length; assumption|].
    intros j Hj. rewrite row_take by assumption.
    unfold item, ta_get. rewrite lookup_take_lt by exact Hj. rewrite lookup_drop. reflexivity.
  - intros n Hn. apply row_past; assumption.
Qed.

Lemma row_reads_items_witness :
  let m := mkMatrix 2 3 [1; 0; 2; 0; 1; 1]%Z : matrix (elt u8) in
  shape_ok m /\
  (forall n, n < nRows m ->
     length (row m n) = nCols m /\
     forall j, j < nCols m -> ta_get (kind_of u8) (row m n) j = item (kind_of u8) m n j) /\
  (forall n, nRows m <= n -> row m n = []).
Proof. intros m. split; [reflexivity|]. exact (row_reads_items (kind_of u8) m eq_refl). Defined.

(** X5. For a well-formed matrix of any element kind and a column index
    [n < nCols], [col(n)] succeeds and returns an array of [nRows] elements
    whose [i]-th element reads as [item(i, n)]. *)
Theorem col_reads_column (dt : dtype) (m : matrix (elt dt)) n :
  wf (kind_of dt) m -> n < nCols m ->
  exists c, col (kind_of dt) m n = Ok c /\ length c = nRows m /\
    forall i, i < nRows m -> ta_get (kind_of dt) c i = item (kind_of dt) m i n.
Proof.
  intros [Hok Hv] Hn.
  exists (map (fun i => nth (i * nCols m + n) (data m) (k_zero (kind_of dt))) (seq 0 (nRows m))).
  assert (Hin : forall i, i < nRows m -> i * nCols m + n < length (data m)).
  { intros i Hi. unfold shape_ok in Hok. rewrite Hok. apply rowmajor_lt; assumption. }
  split; [|split].
  - apply col_loop. intros i Hi. unfold ta_get.
    destruct (nth_lookup_or_length (data m) (i * nCols m + n) (k_zero (kind_of dt))) as [E|E];
      [|specialize (Hin i Hi); lia].
    rewrite E. apply kind_roundtrip. exact (Forall_lookup_1 _ _ _ _ Hv E).
  - rewrite length_map, length_seq. reflexivity.
  - intros i Hi. rewrite ta_get_nth by (rewrite length_map, length_seq; exact Hi).
    rewrite nth_map_seq by exact Hi. unfold item. rewrite ta_get_nth by (apply Hin; exact Hi).
    reflexivity.
Qed.

Lemma col_reads_column_witness :
  let m := mkMatrix 2 3 [1; 0; 2; 0; 1; 1]%Z : matrix (elt u8) in
  wf (kind_of u8) m /\ 2 < nCols m /\
  exists c, col (kind_of u8) m 2 = Ok c /\ length c = nRows m /\
    forall i, i < nRows m -> ta_get (kind_of u8) c i = item (kind_of u8) m i 2.
Proof.
  intros m. assert (H : wf (kind_of u8) m) by (split; [reflexivity | repeat constructor]).
  split; [exact H|]. split; [simpl; lia|].
  apply (col_reads_column u8 m 2 H). simpl; lia.
Defined.

(** X6. [col(n)] does not check [n < nCols]: element [i] is the buffer entry
    at [i * nCols + n], which for [n >= nCols] lies in a later row, and the
    last entries fall past the buffer and read [undefined].  Storing
    [undefined] gives [u] (0 in an integer array, NaN in a float array), so
    on a Number-element matrix the result ends in [u]; on a 64-bit (BigInt)
    matrix with at least one row, storing [undefined] throws TypeError. *)
Theorem col_past_last_column (dt : dtype) (m : matrix (elt dt)) n :
  shape_ok m -> nCols m <= n ->
  (is_wide dt = true -> 0 < nRows m -> col (kind_of dt) m n = Err ETypeError) /\
  (forall u, k_write (kind_of dt) JUndef = Ok u ->
     Forall (fun a => k_valid (kind_of dt) a = true) (data m) ->
     let c := map (fun i => nth (i * nCols m + n) (data m) u) (seq 0 (nRows m)) in
     col (kind_of dt) m n = Ok c /\ (0 < nRows m -> nth (nRows m - 1) c u = u)).
Proof.
  intros Hok Hn. split.
  - intros Hw HR. apply col_wide_undef; assumption.
  - intros u Hu Hv c. split.
    + apply col_loop. intros i _. apply ta_get_write_valid; assumption.
    + intros HR. unfold c. rewrite nth_map_seq by lia. apply nth_overflow.
      unfold shape_ok in Hok. rewrite Hok.
      replace (nRows m) with (S (nRows m - 1)) at 1 by lia. simpl. lia.
Qed.

Lemma col_past_last_column_witness :
  let m := mkMatrix 2 2 [1; 2; 3; 4]%Z : matrix (elt u8) in
  shape_ok m /\ nCols m <= 2 /\
  (is_wide u8 = true -> 0 < nRows m -> col (kind_of u8) m 2 = Err ETypeError) /\
  (forall u, k_write (kind_of u8) JUndef = Ok u ->
     Forall (fun a => k_valid (kind_of u8) a = true) (data m) ->
     let c := map (fun i => nth (i * nCols m + 2) (data m) u) (seq 0 (nRows m)) in
     col (kind_of u8) m 2 = Ok c /\ (0 < nRows m -> nth (nRows m - 1) c u = u)).
Proof.
  intros m. split; [reflexivity|]. split; [simpl; lia|].
  apply (col_past_last_column u8 m 2); [reflexivity | simpl; lia].
Defined.

(** X8. [setCell] and [setAdd] throw TypeError whenever the value's type
    does not match the element kind — a BigInt into a Number-element array,
    or a non-BigInt into a BigInt64/BigUint64 array — whatever the
    position. *)
Theorem mutations_reject_mixed_types (dt : dtype) (m : matrix (elt dt)) r c v :
  is_bigint v <> is_wide dt ->
  setCell (kind_of dt) m r c v = Err ETypeError /\
  setAdd (kind_of dt) m r c v = Err ETypeError.
Proof.
  intros H. unfold setCell, setAdd, ta_put, ta_get.
  destruct (data m !! (r * nCols m + c)) as [a|];
    destruct dt, v; cbn in H |- *; try congruence; split; reflexivity.
Qed.

Lemma mutations_reject_mixed_types_witness :
  let m := mkMatrix 1 2 [5; 6]%Z : matrix (elt u64) in
  is_bigint (JInt 1) <> is_wide u64 /\
  setCell (kind_of u64) m 0 1 (JInt 1) = Err ETypeError /\
  setAdd (kind_of u64) m 0 1 (JInt 1) = Err ETypeError.
Proof.
  intros m. assert (H : is_bigint (JInt 1) <> is_wide u64) by discriminate.
  split; [exact H|]. exact (mutations_reject_mixed_types u64 m 0 1 (JInt 1) H).
Defined.

(** X9. In an integer matrix, [setAdd(r, c, v)] at an offset inside the
    buffer stores the wrapped sum of the old element and [v] (a BigInt for
    the 64-bit kinds, a Number of magnitude at most 2^51 otherwise), and two
    successive [setAdd]s at the same cell equal one [setAdd] of the sum. *)
Theorem setAdd_int_accumulates (big signed : bool) (w : Z) (m : matrix Z) r c (u v : Z) :
  (0 < w)%Z -> big = true \/ (w <= 32)%Z ->
  wf (int_kind big signed w) m ->
  r * nCols m + c < length (data m) ->
  big = true \/ (Z.abs u <= 2 ^ 51 /\ Z.abs v <= 2 ^ 51)%Z ->
  let K := int_kind big signed w in
  let k := r * nCols m + c in
  let lit z := if big then JBig z else JInt z in
  setAdd K m r c (lit u) =
    Ok (with_data m (<[k := wrap signed w (nth k (data m) 0 + u)%Z]> (data m))) /\
  (let! m1 := setAdd K m r c (lit u) in setAdd K m1 r c (lit v)) = setAdd K m r c (lit (u + v)%Z).
Proof.
  intros Hw Hbig [Hok Hv] Hk Huv K k lit.
  assert (Hb : forall z, (big = true \/ (Z.abs z <= 2 ^ 52)%Z) ->
     forall (m' : matrix Z) old, nCols m' = nCols m -> wrap signed w old = old ->
     data m' !! k = Some old ->
     setAdd K m' r c (lit z) = Ok (with_data m' (<[k := wrap signed w (old + z)%Z]> (data m')))).
  { intros z Hz m' old HC Hold Hl. unfold K, lit.
    apply setAdd_int_step; try assumption. unfold k. rewrite HC. reflexivity. }
  assert (E52 : (2 ^ 51 <= 2 ^ 52)%Z) by (apply Z.pow_le_mono_r; lia).
  assert (E52' : (2 ^ 52 = 2 * 2 ^ 51)%Z) by reflexivity.
  set (old := nth k (data m) 0%Z).
  assert (Hl : data m !! k = Some old)
    by (destruct (nth_lookup_or_length (data m) k 0%Z) as [E|E]; [exact E|unfold k in *; lia]).
  assert (Hold : wrap signed w old = old)
    by (apply Z.eqb_eq; exact (Forall_lookup_1 _ _ _ _ Hv Hl)).
  assert (H1 : setAdd K m r c (lit u) =
               Ok (with_data m (<[k := wrap signed w (old + u)%Z]> (data m)))).
  { apply Hb; [destruct Huv as [->|[Hu _]]; [left; reflexivity|right; lia]
             | reflexivity | exact Hold | exact Hl]. }
  split; [exact H1|]. rewrite H1. cbn [res_bind].
  rewrite Hb with (old := wrap signed w (old + u)%Z).
  - rewrite Hb with (old := old); [| destruct Huv as [->|[Hu Hv']]; [left; reflexivity|right; lia]
                                   | reflexivity | exact Hold | exact Hl].
    simpl. unfold with_data. simpl. rewrite list_insert_insert_eq.
    rewrite wrap_add_l, Z.add_assoc. reflexivity.
  - destruct Huv as [->|[_ Hv']]; [left; reflexivity|right; lia].
  - reflexivity.
  - apply wrap_idem.
  - simpl. apply list_lookup_insert_eq. exact Hk.
Qed.

Lemma setAdd_int_accumulates_witness :
  let m := mkMatrix 1 2 [250; 3]%Z : matrix Z in
  ((0 < 8)%Z /\ (false = true \/ (8 <= 32)%Z) /\ wf (int_kind false false 8) m /\
   0 * nCols m + 0 < length (data m) /\
   (false = true \/ (Z.abs 10 <= 2 ^ 51 /\ Z.abs 4 <= 2 ^ 51)%Z)) /\
  setAdd (int_kind false false 8) m 0 0 (JInt 10) =
    Ok (with_data m (<[0 := wrap false 8 (nth 0 (data m) 0 + 10)%Z]> (data m))) /\
  (let! m1 := setAdd (int_kind false false 8) m 0 0 (JInt 10) in
   setAdd (int_kind false false 8) m1 0 0 (JInt 4))
    = setAdd (int_kind false false 8) m 0 0 (JInt (10 + 4)%Z).
Proof.
  intros m.
  assert (H : (0 < 8)%Z /\ (false = true \/ (8 <= 32)%Z) /\ wf (int_kind false false 8) m /\
              0 * nCols m + 0 < length (data m) /\
              (false = true \/ (Z.abs 10 <= 2 ^ 51 /\ Z.abs 4 <= 2 ^ 51)%Z)).
  { split; [lia|]. split; [right; lia|]. split; [split; [reflexivity|repeat constructor]|].
    split; [simpl; lia|]. right; split; simpl; lia. }
  split; [exact H|].
  destruct H as (H1 & H2 & H3 & H4 & H5).
  exact (setAdd_int_accumulates false false 8 m 0 0 10 4 H1 H2 H3 H4 H5).
Defined.

(** X10. For BigInt64/BigUint64 matrices [dot] first checks the shapes,
    whatever the matrices: rows first, throwing "Matrices must have equal
    rows.", then columns, throwing "Matrices must have equal cols.".  For
    non-empty well-shaped operands of equal shape it returns the exact
    BigInt sum of the products [a(i,j) * b(i,j)] over all cells, with no
    wrap-around. *)
Theorem dot_bigint_exact (signed : bool) (w : Z) (a b : matrix Z) :
  let K := int_kind true signed w in
  (nRows b <> nRows a -> dot K a b = Err EUnequalRows) /\
  (nRows b = nRows a -> nCols b <> nCols a -> dot K a b = Err EUnequalCols) /\
  (shape_ok a -> shape_ok b -> 0 < length (data a) ->
   nRows b = nRows a -> nCols b = nCols a ->
     dot K a b = Ok (JBig (zsum (map (fun ij =>
       nth (fst ij * nCols a + snd ij) (data a) 0 *
       nth (fst ij * nCols a + snd ij) (data b) 0)%Z (nested (nRows a) (nCols a)))))).
Proof.
  intros K. split; [|split].
  - intros H. unfold dot. rewrite (proj2 (Nat.eqb_neq _ _) H). reflexivity.
  - intros H1 H2. unfold dot. rewrite (proj2 (Nat.eqb_eq _ _) H1).
    rewrite (proj2 (Nat.eqb_neq _ _) H2). reflexivity.
  - intros Ha Hb Hne H1 H2. unfold dot.
    rewrite (proj2 (Nat.eqb_eq _ _) H1), (proj2 (Nat.eqb_eq _ _) H2).
    simpl negb. cbv iota.
    destruct (data a) as [|x0 da] eqn:Ea; [simpl in Hne; lia|].
    unfold ta_get at 1. simpl lookup. cbn [K int_kind k_read is_bigint].
    rewrite <- Ea. unfold K.
    rewrite dot_big_loop.
    + f_equal. f_equal. rewrite Z.add_0_l, H2.
      apply (zsum_col_major (nRows a) (nCols a)
               (fun i j => nth (i * nCols a + j) (data a) 0 * nth (i * nCols a + j) (data b) 0)%Z).
    + intros ji Hji. apply in_nested in Hji. unfold shape_ok in Ha, Hb.
      rewrite Ha, Hb, H1, H2. split; apply rowmajor_lt; lia.
Qed.

Lemma dot_bigint_exact_witness :
  let a := mkMatrix 1 2 [2 ^ 40; 3]%Z in
  let b := mkMatrix 1 2 [2 ^ 40; 5]%Z in
  dot (int_kind true false 64) a (mkMatrix 0 2 []) = Err EUnequalRows /\
  dot (int_kind true false 64) a b = Ok (JBig (2 ^ 80 + 15)).
Proof.
  intros a b. split.
  - apply (proj1 (dot_bigint_exact false 64 a (mkMatrix 0 2 []))). simpl. lia.
  - rewrite (proj2 (proj2 (dot_bigint_exact false 64 a b))); [reflexivity | reflexivity |
      reflexivity | simpl; lia | reflexivity | reflexivity].
Defined.

(** X11. [dot] is symmetric: for well-shaped matrices of the same element
    kind, [a.dot(b)] and [b.dot(a)] give the same result or throw the same
    error (IEEE multiplication is commutative, and each product is added to
    the accumulator in the same order). *)
Theorem dot_symmetric (dt : dtype) (a b : matrix (elt dt)) :
  shape_ok a -> shape_ok b -> dot (kind_of dt) a b = dot (kind_of dt) b a.
Proof.
  intros Ha Hb. unfold dot. rewrite (Nat.eqb_sym (nRows a) (nRows b)).
  destruct (Nat.eqb_spec (nRows b) (nRows a)) as [ER|ER]; simpl; [|reflexivity].
  rewrite (Nat.eqb_sym (nCols a) (nCols b)).
  destruct (Nat.eqb_spec (nCols b) (nCols a)) as [EC|EC]; simpl; [|reflexivity].
  rewrite (is_bigint_first dt (data a) (data b))
    by (unfold shape_ok in Ha, Hb; rewrite Ha, Hb, ER, EC; reflexivity).
  rewrite ER, EC. apply res_fold_ext. intros r ji _. rewrite js_mul_comm. reflexivity.
Qed.

Lemma dot_symmetric_witness :
  let a := mkMatrix 1 2 [0.5; 3]%float in
  let b := mkMatrix 1 2 [0.25; 2]%float in
  shape_ok a /\ shape_ok b /\ dot (kind_of f64) a b = dot (kind_of f64) b a.
Proof.
  intros a b. assert (Ha : shape_ok a) by reflexivity. assert (Hb : shape_ok b) by reflexivity.
  split; [exact Ha|]. split; [exact Hb|]. exact (dot_symmetric f64 a b Ha Hb).
Defined.

(** X12. On a well-shaped matrix, [slice(s, e)] with [s <= e <= nRows]
    ([e] absent or 0 meaning [nRows]) returns a well-shaped matrix of
    [e - s] rows and [nCols] columns whose item [(i, j)] is the original's
    item [(s + i, j)]. *)
Theorem slice_selects_rows {A} (K : kind A) (m : matrix A) s en :
  shape_ok m ->
  let e := match en with Some (S k) => S k | _ => nRows m end in
  s <= e <= nRows m ->
  nRows (slice m s en) = e - s /\ nCols (slice m s en) = nCols m /\
  shape_ok (slice m s en) /\
  forall i j, i < e - s -> j < nCols m -> item K (slice m s en) i j = item K m (s + i) j.
Proof.
  intros Hok e He. rewrite (slice_rows_data m s en Hok He). fold e.
  simpl. split; [reflexivity|]. split; [reflexivity|]. split.
  - unfold shape_ok in *. simpl. rewrite length_take, length_drop, Hok.
    apply Nat.min_l. rewrite Nat.mul_sub_distr_r. nia.
  - intros i j Hi Hj. unfold item, ta_get. simpl.
    assert (Hle : S i * nCols m <= (e - s) * nCols m) by (apply Nat.mul_le_mono_r; lia).
    simpl in Hle. rewrite lookup_take_lt by lia.
    rewrite lookup_drop, Nat.mul_add_distr_r, Nat.add_assoc. reflexivity.
Qed.

Lemma slice_selects_rows_witness :
  let m := mkMatrix 3 2 [1; 2; 3; 4; 5; 6]%Z : matrix (elt u8) in
  shape_ok m /\ 1 <= 3 <= nRows m /\
  nRows (slice m 1 (Some 3)) = 3 - 1 /\ nCols (slice m 1 (Some 3)) = nCols m /\
  shape_ok (slice m 1 (Some 3)) /\
  forall i j, i < 3 - 1 -> j < nCols m ->
    item (kind_of u8) (slice m 1 (Some 3)) i j = item (kind_of u8) m (1 + i) j.
Proof.
  intros m. assert (Hok : shape_ok m) by reflexivity.
  assert (He : 1 <= 3 <= nRows m) by (simpl; lia).
  split; [exact Hok|]. split; [exact He|].
  exact (slice_selects_rows (kind_of u8) m 1 (Some 3) Hok He).
Defined.

(** X13. [slice(s, e)] does not clamp [e]: with [e > nRows] (and [s <= nRows],
    [nCols > 0]) the result claims [e - s] rows but its buffer holds only the
    [nRows - s] remaining rows, so it breaks the layout invariant. *)
Theorem slice_past_last_row {A} (m : matrix A) s e :
  shape_ok m -> s <= nRows m -> nRows m < e -> 0 < nCols m ->
  nRows (slice m s (Some e)) = e - s /\
  length (data (slice m s (Some e))) = (nRows m - s) * nCols m /\
  ~ shape_ok (slice m s (Some e)).
Proof.
  intros Hok Hs He HC. unfold shape_ok in Hok.
  assert (Hd : length (data (slice m s (Some e))) = (nRows m - s) * nCols m).
  { unfold slice, ta_slice, truthy. destruct e as [|e]; [lia|].
    destruct s as [|s]; cbn -[Nat.mul]; rewrite ?Hok; rewrite Nat.min_r by nia;
      rewrite length_take, length_drop, Hok, Nat.mul_sub_distr_r; nia. }
  assert (Hr : nRows (slice m s (Some e)) = e - s)
    by (unfold slice, truthy; destruct e; [lia|reflexivity]).
  split; [exact Hr|]. split; [exact Hd|].
  unfold shape_ok. rewrite Hd, Hr. simpl.
  intros H. apply Nat.mul_cancel_r in H; lia.
Qed.

Lemma slice_past_last_row_witness :
  let m := mkMatrix 2 2 [1; 2; 3; 4]%Z : matrix (elt u8) in
  (shape_ok m /\ 1 <= nRows m /\ nRows m < 4 /\ 0 < nCols m) /\
  nRows (slice m 1 (Some 4)) = 4 - 1 /\
  length (data (slice m 1 (Some 4))) = (nRows m - 1) * nCols m /\
  ~ shape_ok (slice m 1 (Some 4)).
Proof.
  intros m. assert (Hok : shape_ok m) by reflexivity.
  assert (H1 : 1 <= nRows m) by (simpl; lia). assert (H2 : nRows m < 4) by (simpl; lia).
  assert (H3 : 0 < nCols m) by (simpl; lia).
  split; [auto|]. exact (slice_past_last_row m 1 4 Hok H1 H2 H3).
Defined.

(** X14. [new Matrix(rows, {dType})] for a non-empty rectangular nested
    array throws TypeError exactly when some element's type does not match
    the kind (a BigInt for a Number kind, a non-BigInt for a 64-bit kind),
    throws nothing else, and otherwise gives a well-shaped
    [rows.length x rows[0].length] matrix whose item [(i, j)] reads the
    conversion of [rows[i][j]]. *)
Theorem new_Matrix_nested_arrays (dt : dtype) (rws : list (list jsval)) cfg :
  cfg_dType cfg = true -> rws <> [] ->
  Forall (fun r => length r = length (hd [] rws)) rws ->
  (new_Matrix (kind_of dt) (InArray rws) cfg = Err ETypeError <->
     exists v, In v (concat rws) /\ is_bigint v <> is_wide dt) /\
  (forall e, new_Matrix (kind_of dt) (InArray rws) cfg = Err e -> e = ETypeError) /\
  (forall m, new_Matrix (kind_of dt) (InArray rws) cfg = Ok m ->
     shape_ok m /\ nRows m = length rws /\ nCols m = length (hd [] rws) /\
     forall i j, i < nRows m -> j < nCols m ->
       exists a, k_write (kind_of dt) (nth j (nth i rws []) JUndef) = Ok a /\
                 item (kind_of dt) m i j = k_read (kind_of dt) a).
Proof.
  intros HdT Hne Hrect.
  destruct rws as [|r0 rws']; [contradiction|]. clear Hne.
  unfold new_Matrix. rewrite HdT. simpl negb. cbv iota.
  split; [|split].
  - split.
    + destruct (res_map _ _) as [buf|e] eqn:E; simpl; [discriminate|].
      intros H. injection H as ->. destruct (res_map_err _ _ _ E) as (v & Hv & Hw).
      exists v. split; [exact Hv|]. apply kind_write_err. eauto.
    + intros (v & Hv & Hw). apply kind_write_err in Hw as [e He].
      destruct (res_map_some_err _ _ _ _ Hv He) as [e' E]. rewrite E. simpl.
      f_equal. destruct (res_map_err _ _ _ E) as (x & _ & Hx).
      exact (kind_write_err_type _ _ _ Hx).
  - intros e. destruct (res_map _ _) as [buf|e'] eqn:E; simpl; [discriminate|].
    intros H. injection H as <-. destruct (res_map_err _ _ _ E) as (x & _ & Hx).
    exact (kind_write_err_type _ _ _ Hx).
  - intros m. destruct (res_map _ _) as [buf|e'] eqn:E; simpl; [|discriminate].
    intros H. injection H as <-. simpl in Hrect |- *.
    assert (Hlen : length buf = length (r0 :: rws') * length r0).
    { rewrite (res_map_length _ _ _ E). apply length_concat_const. exact Hrect. }
    split; [exact Hlen|]. split; [reflexivity|]. split; [reflexivity|].
    intros i j Hi Hj.
    assert (Hc : concat (r0 :: rws') !! (i * length r0 + j) = Some (nth j (nth i (r0 :: rws') []) JUndef)).
    { simpl in Hi, Hj. rewrite (concat_lookup_uniform _ (length r0)) by assumption.
      assert (Hri : length (nth i (r0 :: rws') []) = length r0).
      { rewrite Forall_forall in Hrect. apply Hrect, list_elem_of_In, nth_In. exact Hi. }
      destruct (nth_lookup_or_length (nth i (r0 :: rws') []) j JUndef) as [E'|E']; [exact E'|lia]. }
    destruct (res_map_lookup _ _ _ _ _ E Hc) as (a & Ha & Hb).
    exists a. split; [exact Ha|]. unfold item, ta_get. simpl. rewrite Hb. reflexivity.
Qed.

Lemma new_Matrix_nested_arrays_witness :
  let rws := [[JInt 1; JInt 2]; [JInt 3; JBig 4]] in
  let cfg := {| cfg_shape := None; cfg_dType := true |} in
  (cfg_dType cfg = true /\ rws <> [] /\ Forall (fun r => length r = length (hd [] rws)) rws) /\
  (new_Matrix (kind_of u8) (InArray rws) cfg = Err ETypeError <->
     exists v, In v (concat rws) /\ is_bigint v <> is_wide u8) /\
  (forall e, new_Matrix (kind_of u8) (InArray rws) cfg = Err e -> e = ETypeError) /\
  (forall m, new_Matrix (kind_of u8) (InArray rws) cfg = Ok m ->
     shape_ok m /\ nRows m = length rws /\ nCols m = length (hd [] rws) /\
     forall i j, i < nRows m -> j < nCols m ->
       exists a, k_write (kind_of u8) (nth j (nth i rws []) JUndef) = Ok a /\
                 item (kind_of u8) m i j = k_read (kind_of u8) a).
Proof.
  intros rws cfg.
  assert (H1 : cfg_dType cfg = true) by reflexivity.
  assert (H2 : rws <> []) by discriminate.
  assert (H3 : Forall (fun r => length r = length (hd [] rws)) rws) by (repeat constructor).
  split; [auto|]. exact (new_Matrix_nested_arrays u8 rws cfg H1 H2 H3).
Defined.

(** X16. On a well-shaped matrix with no rows (and some columns), [rowMean]
    divides the zero sums by the Number [0], as [data[0]] is undefined: for
    the 64-bit kinds it throws TypeError (BigInt divided by a Number), for
    the other kinds it returns [nCols] entries reading NaN (float kinds) or
    [0] (integer kinds). [colMean] behaves the same on a matrix with no
    columns (and some rows), with [nRows] entries. *)
Theorem means_of_empty_matrix (dt : dtype) (m : matrix (elt dt)) :
  shape_ok m ->
  (nRows m = 0 -> 0 < nCols m ->
     (is_wide dt = true -> rowMean (kind_of dt) m = Err ETypeError) /\
     (is_wide dt = false -> exists u,
        rowMean (kind_of dt) m = Ok (replicate (nCols m) u) /\
        k_read (kind_of dt) u = if is_int dt then JInt 0 else JNum nan)) /\
  (nCols m = 0 -> 0 < nRows m ->
     (is_wide dt = true -> colMean (kind_of dt) m = Err ETypeError) /\
     (is_wide dt = false -> exists u,
        colMean (kind_of dt) m = Ok (replicate (nRows m) u) /\
        k_read (kind_of dt) u = if is_int dt then JInt 0 else JNum nan)).
Proof.
  intros Hok. unfold shape_ok in Hok. split.
  - intros Hr HC. assert (Hd : data m = []) by (apply nil_length_inv; rewrite Hok, Hr; reflexivity).
    rewrite (rowMean_no_rows dt m Hd Hr HC). split; intros W; rewrite W; [reflexivity|].
    destruct (nan_write_read dt W) as (u & Hu & Hread). rewrite Hu. eauto.
  - intros Hc HR. assert (Hd : data m = []) by (apply nil_length_inv; rewrite Hok, Hc; lia).
    rewrite (colMean_no_cols dt m Hd Hc HR). split; intros W; rewrite W; [reflexivity|].
    destruct (nan_write_read dt W) as (u & Hu & Hread). rewrite Hu. eauto.
Qed.

Lemma means_of_empty_matrix_witness :
  let m := mkMatrix 0 3 [] : matrix (elt u64) in
  let m' := mkMatrix 2 0 [] : matrix (elt f32) in
  shape_ok m /\ rowMean (kind_of u64) m = Err ETypeError /\
  shape_ok m' /\ exists u, colMean (kind_of f32) m' = Ok (replicate 2 u) /\
                           k_read (kind_of f32) u = JNum nan.
Proof.
  intros m m'. assert (H1 : shape_ok m) by reflexivity. assert (H2 : shape_ok m') by reflexivity.
  split; [exact H1|]. split.
  - apply (proj1 (proj1 (means_of_empty_matrix u64 m H1) eq_refl ltac:(simpl; lia))). reflexivity.
  - split; [exact H2|].
    exact (proj2 (proj2 (means_of_empty_matrix f32 m' H2) eq_refl ltac:(simpl; lia)) eq_refl).
Defined.

(** X17. Fitting a Float64 term-frequency matrix [tf] and then transforming a
    well-shaped Float64 matrix [x] with as many columns succeeds, leaves the
    fitted state as it is, and gives a matrix of the shape of [x] whose cell
    [(i, j)] is [x[i][j] * (ln(nRows(tf) / freq[j]) + 1)], [freq[j]] being the
    total of column [j] of [tf] summed row by row.  The Matrix of
    utils/matrix.ts that [multiplyDiags] uses is modelled from the spec. *)
Theorem fit_then_transform (js_log : float -> float) (t : TfIdfTransformer)
    (tf x : matrix float) :
  shape_ok tf -> shape_ok x -> nCols x = nCols tf ->
  exists t', fit js_log f64K t tf = Ok t' /\
  exists r, transform t' x = (t', Ok r) /\
    shape_ok r /\ nRows r = nRows x /\ nCols r = nCols x /\
    forall i j, i < nRows x -> j < nCols x ->
      data r !! (i * nCols x + j) =
        Some (nth (i * nCols x + j) (data x) 0 *
              (js_log (float_of_Z (Z.of_nat (nRows tf)) /
                 fold_left (fun acc k => acc + nth (k * nCols tf + j) (data tf) 0)
                   (seq 0 (nRows tf)) 0) + 1))%float.
Proof.
  intros Htf Hx HC.
  assert (HP : Forall (fun _ : float => True) (data tf))
    by (apply List.Forall_forall; intros; exact I).
  set (y := map (fun j => (js_log (float_of_Z (Z.of_nat (nRows tf)) /
              fold_left (fun acc k => acc + nth (k * nCols tf + j) (data tf) 0)
                (seq 0 (nRows tf)) 0) + 1)%float) (seq 0 (nCols tf))).
  assert (Hfit : fit js_log f64K t tf = Ok {| idf := Some y |}).
  { unfold fit.
    rewrite (rowSum_spec f64K (fun _ => True) (fun a b => (a + b)%float) I
               (fun a b _ _ => conj (float_add_spec false a b) I) tf Htf HP).
    cbn [res_bind]. rewrite map_map. reflexivity. }
  exists {| idf := Some y |}. split; [exact Hfit|].
  exists (multiplyDiags x y). split; [reflexivity|].
  destruct (multiplyDiags_cells x y Hx) as [Hok Hc].
  split; [exact Hok|]. split; [apply multiplyDiags_nRows|]. split; [apply multiplyDiags_nCols|].
  intros i j Hi Hj. rewrite (Hc i j Hi Hj). unfold y.
  rewrite (map_seq_lookup _ (nCols tf) j) by lia. reflexivity.
Qed.

Lemma fit_then_transform_witness :
  let tf := mkMatrix 2 2 [1; 0; 1; 1]%float in
  let x := mkMatrix 1 2 [2; 3]%float in
  (shape_ok tf /\ shape_ok x /\ nCols x = nCols tf) /\
  exists t', fit (fun f => f) f64K new_TfIdfTransformer tf = Ok t' /\
  exists r, transform t' x = (t', Ok r) /\
    shape_ok r /\ nRows r = nRows x /\ nCols r = nCols x /\
    forall i j, i < nRows x -> j < nCols x ->
      data r !! (i * nCols x + j) =
        Some (nth (i * nCols x + j) (data x) 0 *
              ((float_of_Z (Z.of_nat (nRows tf)) /
                 fold_left (fun acc k => acc + nth (k * nCols tf + j) (data tf) 0)
                   (seq 0 (nRows tf)) 0) + 1))%float.
Proof.
  intros tf x.
  assert (H1 : shape_ok tf) by reflexivity. assert (H2 : shape_ok x) by reflexivity.
  assert (H3 : nCols x = nCols tf) by reflexivity.
  split; [auto|]. exact (fit_then_transform (fun f => f) new_TfIdfTransformer tf x H1 H2 H3).
Defined.
